(** * Neighbor extraction from a topology: [extract_neighbors.py]

    A shallow embedding of [get_neighbors] and of the helper
    [flatten_arcs] nested in it, followed by the properties of the
    adjacency relation it computes.

    Input domain.  The two JSON documents are taken in the shape the data
    model gives them:
    - the metadata document is a dict from display name to an info dict of
      string fields; [info.get('alpha3')] is the lookup of ["alpha3"];
    - a geometry is a dict.  Its ['id'] is absent, [null] or a string, and
      is only read through [.get], which gives [None] in the first two
      cases: it is an [option].  Its ['properties'] and its ['arcs'] are
      read through [.get] with a default, which tells an absent key (the
      default) from a [null] value ([None]): they are [field]s.  A
      ['properties'] value is a dict of string fields, an ['arcs'] value a
      nested list of integers;
    - the string fields of a ['properties'] or of an info dict are only read
      through [.get]: [null] and absent are both the [None] of the lookup.
    Python integers are unbounded: arc references are in [Z].  Python dicts
    are [gmap]s, Python sets are [gset]s.  On this domain the script raises
    [AttributeError] when it calls [.get] on the [None] of a [null]
    ['properties'], [KeyError] at [geom['properties']] and [TypeError] when
    it iterates over the [None] of a [null] ['arcs']. *)

From stdpp Require Import base option list sorting gmap strings.
From Stdlib Require Import ZArith.

#[local] Set Warnings "-clear-no-such-hyp".

Open Scope string_scope.
Open Scope Z_scope.
Open Scope list_scope.

(** ** Exceptions *)

Inductive exn : Type :=
  | KeyError (key : string)
  | AttributeError
  | TypeError.

Inductive result (A : Type) : Type :=
  | Ok (a : A)
  | Raise (e : exn).
Arguments Ok {A} a.
Arguments Raise {A} e.

#[export] Instance result_ret : MRet result := λ A a, Ok a.
#[export] Instance result_bind : MBind result := λ A B f m,
  match m with
  | Ok a => f a
  | Raise e => Raise e
  end.

(** A [for] loop whose body may raise: the first exception leaves the loop. *)
Fixpoint for_each {A S : Type} (body : S → A → result S) (s : S) (l : list A)
    : result S :=
  match l with
  | [] => Ok s
  | x :: l' => s' ← body s x; for_each body s' l'
  end.

(** ** Data model *)

(** An item of an ['arcs'] list: an integer, or a list of items. *)
#[warnings="-register-all"]
Inductive arc_item : Type :=
  | Arc (r : Z)
  | Arcs (items : list arc_item).

(** A key of a JSON object: absent, present with the value [null], or
    present with a value. *)
Inductive field (A : Type) : Type :=
  | Absent
  | Null
  | Value (a : A).
Arguments Absent {A}.
Arguments Null {A}.
Arguments Value {A} a.

Record geometry : Type := Geometry {
  geom_id : option string;
  geom_properties : field (gmap string string);
  geom_arcs : field (list arc_item)
}.

(** Truth value of [None], of a string and of a dict. *)
Definition truthy (v : option string) : bool :=
  match v with
  | Some s => bool_decide (s ≠ "")
  | None => false
  end.

Definition truthy_dict (d : option (gmap string string)) : bool :=
  match d with
  | Some m => bool_decide (m ≠ ∅)
  | None => false
  end.

(** [a or b] *)
Definition py_or (a b : option string) : option string :=
  if truthy a then a else b.

(** ** [all_alpha3]: the recognized codes (lines 13-18) *)

Definition add_info (all_alpha3 : gset string) (info : gmap string string)
    : gset string :=
  if truthy (info !! "alpha3")
  then match info !! "alpha3" with
       | Some c => {[c]} ∪ all_alpha3
       | None => all_alpha3
       end
  else all_alpha3.

Definition all_alpha3_of (metadata : gmap string (gmap string string))
    : gset string :=
  map_fold (λ _ info acc, add_info acc info) ∅ metadata.

(** ** Region resolver: first loop over the geometries (lines 24-44) *)

(** [metadata.get(name)]: the keys of a JSON object are strings, so the
    lookup of [None] finds nothing. *)
Definition metadata_get (metadata : gmap string (gmap string string))
    (name : option string) : option (gmap string string) :=
  match name with
  | Some n => metadata !! n
  | None => None
  end.

(** Lines 25-26: [props = geom.get('properties', {})], the default for an
    absent key only; [props.get] is then called, which [None] does not
    have. *)
Definition get_properties (geom : geometry) : result (gmap string string) :=
  match geom_properties geom with
  | Absent => Ok ∅
  | Null => Raise AttributeError
  | Value props => Ok props
  end.

(** The value of the variable [alpha3] at line 39, from [geom.get('id')]
    and [props]. *)
Definition resolve_alpha3 (metadata : gmap string (gmap string string))
    (ident : option string) (props : gmap string string) : option string :=
  let alpha3 := props !! "alpha3" in
  let name := props !! "name" in
  let alpha3 :=
    if negb (truthy alpha3) then
      let meta_entry := metadata_get metadata name in
      if truthy_dict meta_entry
      then match meta_entry with
           | Some entry => entry !! "alpha3"
           | None => alpha3
           end
      else alpha3
    else alpha3 in
  if bool_decide (name = Some "Somaliland")
     || bool_decide (ident = Some "ABV")
  then Some "SOM"
  else alpha3.

(** The key of line 40: [geom.get('id') or name]. *)
Definition table_key (ident : option string) (props : gmap string string)
    : option string :=
  py_or ident (props !! "name").

Definition resolve_step (metadata : gmap string (gmap string string))
    (id_to_alpha3 : gmap (option string) string) (geom : geometry)
    : result (gmap (option string) string) :=
  props ← get_properties geom;
  let alpha3 := resolve_alpha3 metadata (geom_id geom) props in
  if truthy alpha3
  then match alpha3 with
       | Some c => Ok (<[table_key (geom_id geom) props := c]> id_to_alpha3)
       | None => Ok id_to_alpha3
       end
  else Ok id_to_alpha3.

Definition build_id_to_alpha3 (metadata : gmap string (gmap string string))
    (geometries : list geometry) : result (gmap (option string) string) :=
  for_each (resolve_step metadata) ∅ geometries.

(** ** Arc normalizer and indexer: second loop (lines 46-69) *)

(** [flatten_arcs]: [flat] starts empty; a list item extends it with its own
    flattening, any other item is appended. *)
Fixpoint flatten_item (flat : list Z) (item : arc_item) : list Z :=
  match item with
  | Arc r => flat ++ [r]
  | Arcs items => flat ++ foldl flatten_item [] items
  end.

Definition flatten_arcs (arcs : list arc_item) : list Z :=
  foldl flatten_item [] arcs.

(** Line 66: [arc if arc >= 0 else ~arc]. *)
Definition normalize_arc (arc : Z) : Z :=
  if Z.geb arc 0 then arc else Z.lnot arc.

(** Lines 66-69 for one reference. *)
Definition add_owner (target_alpha3 : string)
    (arc_to_alpha3 : gmap Z (gset string)) (arc : Z) : gmap Z (gset string) :=
  let normalized_arc := normalize_arc arc in
  let arc_to_alpha3 :=
    match arc_to_alpha3 !! normalized_arc with
    | None => <[normalized_arc := ∅]> arc_to_alpha3
    | Some _ => arc_to_alpha3
    end in
  alter (λ owners, {[target_alpha3]} ∪ owners) normalized_arc arc_to_alpha3.

(** Line 47: [geom.get('id') or geom['properties'].get('name')].  The
    subscript raises on an absent key, and [.get] on the [None] of a [null]
    value. *)
Definition lookup_key (geom : geometry) : result (option string) :=
  if truthy (geom_id geom) then Ok (geom_id geom)
  else match geom_properties geom with
       | Value props => Ok (props !! "name")
       | Null => Raise AttributeError
       | Absent => Raise (KeyError "properties")
       end.

(** Lines 52 and 56: [geom.get('arcs', [])], the default for an absent key
    only; the loop of [flatten_arcs] over [None] raises. *)
Definition get_arcs (geom : geometry) : result (list arc_item) :=
  match geom_arcs geom with
  | Absent => Ok []
  | Null => Raise TypeError
  | Value arcs_list => Ok arcs_list
  end.

Definition index_step (id_to_alpha3 : gmap (option string) string)
    (arc_to_alpha3 : gmap Z (gset string)) (geom : geometry)
    : result (gmap Z (gset string)) :=
  key ← lookup_key geom;
  let target_alpha3 := id_to_alpha3 !! key in
  if negb (truthy target_alpha3) then Ok arc_to_alpha3
  else match target_alpha3 with
       | None => Ok arc_to_alpha3
       | Some target =>
           arcs_list ← get_arcs geom;
           let flat_arcs := flatten_arcs arcs_list in
           Ok (foldl (add_owner target) arc_to_alpha3 flat_arcs)
       end.

Definition build_arc_to_alpha3 (id_to_alpha3 : gmap (option string) string)
    (geometries : list geometry) : result (gmap Z (gset string)) :=
  for_each (index_step id_to_alpha3) ∅ geometries.

(** ** Adjacency builder (lines 71-83) *)

(** Lines 77-79 for one ordered pair. *)
Definition add_pair (a1 a2 : string) (neighbors : gmap string (gset string))
    : gmap string (gset string) :=
  if bool_decide (a1 ≠ a2)
  then match neighbors !! a1 with
       | Some _ => alter (λ s, {[a2]} ∪ s) a1 neighbors
       | None => neighbors
       end
  else neighbors.

(** Lines 74-79 for one owner set. *)
Definition add_arc_edges (alpha3_set : gset string)
    (neighbors : gmap string (gset string)) : gmap string (gset string) :=
  if bool_decide (1 < size alpha3_set)%nat
  then set_fold (λ a1 nb,
         set_fold (λ a2 nb', add_pair a1 a2 nb') nb alpha3_set)
         neighbors alpha3_set
  else neighbors.

Definition build_neighbors (all_alpha3 : gset string)
    (arc_to_alpha3 : gmap Z (gset string)) : gmap string (gset string) :=
  map_fold (λ _ alpha3_set nb, add_arc_edges alpha3_set nb)
    (gset_to_gmap ∅ all_alpha3) arc_to_alpha3.

(** Line 82: [sorted(list(v))]. *)
Definition sorted_list (v : gset string) : list string :=
  merge_sort String.le (elements v).

(** The arc-ownership table of a run: the two loops over the geometries. *)
Definition arc_table (geometries : list geometry)
    (metadata : gmap string (gmap string string))
    : result (gmap Z (gset string)) :=
  id_to_alpha3 ← build_id_to_alpha3 metadata geometries;
  build_arc_to_alpha3 id_to_alpha3 geometries.

Definition get_neighbors (geometries : list geometry)
    (metadata : gmap string (gmap string string))
    : result (gmap string (list string)) :=
  let all_alpha3 := all_alpha3_of metadata in
  arc_to_alpha3 ← arc_table geometries metadata;
  let neighbors := build_neighbors all_alpha3 arc_to_alpha3 in
  Ok (sorted_list <$> neighbors).

(** ** Vocabulary of the properties *)

(** The recognized universe: the non-empty codes of the metadata table. *)
Definition recognized (metadata : gmap string (gmap string string))
    (c : string) : Prop :=
  ∃ name info, metadata !! name = Some info ∧ info !! "alpha3" = Some c
    ∧ c ≠ "".

(** [b] appears in the neighbor list of [a]. *)
Definition lists (out : gmap string (list string)) (a b : string) : Prop :=
  ∃ l, out !! a = Some l ∧ b ∈ l.

(** [c] appears somewhere in the output, as a key or in a list. *)
Definition appears (out : gmap string (list string)) (c : string) : Prop :=
  is_Some (out !! c) ∨ ∃ a, lists out a c.

(** The same on the neighbor sets, before they are sorted. *)
Definition adjacent (neighbors : gmap string (gset string)) (a b : string)
    : Prop :=
  ∃ s, neighbors !! a = Some s ∧ b ∈ s.

(** A geometry resolves to the code [c]. *)
Definition resolves_to (metadata : gmap string (gmap string string))
    (geom : geometry) (c : string) : Prop :=
  ∃ props, get_properties geom = Ok props
    ∧ resolve_alpha3 metadata (geom_id geom) props = Some c ∧ c ≠ "".

(** A geometry resolves to no code. *)
Definition unresolved (metadata : gmap string (gmap string string))
    (geom : geometry) : Prop :=
  ∃ props, get_properties geom = Ok props
    ∧ truthy (resolve_alpha3 metadata (geom_id geom) props) = false.

(** The key under which the first loop files a geometry. *)
Definition filed_under (geom : geometry) (key : option string) : Prop :=
  ∃ props, get_properties geom = Ok props
    ∧ table_key (geom_id geom) props = key.

(** The override list of the resolver. *)
Definition overridden (ident : option string) (props : gmap string string)
    : Prop :=
  props !! "name" = Some "Somaliland" ∨ ident = Some "ABV".

(** The code [c] is an owner of the arc [n] in an ownership table. *)
Definition owns (tbl : gmap Z (gset string)) (c : string) (n : Z) : Prop :=
  ∃ owners, tbl !! n = Some owners ∧ c ∈ owners.

(** The canonical arc [n] is among the references of a geometry. *)
Definition traverses (geom : geometry) (n : Z) : Prop :=
  ∃ arcs_list, get_arcs geom = Ok arcs_list
    ∧ n ∈ normalize_arc <$> flatten_arcs arcs_list.

(** The second loop indexes a geometry under the code [c]: the code bound
    to its key in the table of the first loop. *)
Definition indexed_under (ids : gmap (option string) string)
    (geom : geometry) (c : string) : Prop :=
  ∃ key, lookup_key geom = Ok key ∧ ids !! key = Some c ∧ c ≠ "".

(** No two geometries are filed under the same key. *)
Definition distinct_keys (geometries : list geometry) : Prop :=
  ∀ g1 g2 key, g1 ∈ geometries → g2 ∈ geometries →
    filed_under g1 key → filed_under g2 key → g1 = g2.

(** The leaves of a nested arc structure, from left to right. *)
Inductive leaves_of : list arc_item → list Z → Prop :=
  | leaves_nil : leaves_of [] []
  | leaves_arc r rest zs :
      leaves_of rest zs → leaves_of (Arc r :: rest) (r :: zs)
  | leaves_arcs items rest zs1 zs2 :
      leaves_of items zs1 → leaves_of rest zs2 →
      leaves_of (Arcs items :: rest) (zs1 ++ zs2).

(** Two arc structures that differ only in the direction of some
    references: each leaf is kept or replaced by its complement. *)
Inductive sign_swap : arc_item → arc_item → Prop :=
  | swap_keep r : sign_swap (Arc r) (Arc r)
  | swap_flip r : sign_swap (Arc r) (Arc (- r - 1))
  | swap_arcs items items' :
      sign_swap_list items items' → sign_swap (Arcs items) (Arcs items')
with sign_swap_list : list arc_item → list arc_item → Prop :=
  | swap_nil : sign_swap_list [] []
  | swap_cons a a' l l' :
      sign_swap a a' → sign_swap_list l l' →
      sign_swap_list (a :: l) (a' :: l').

Scheme sign_swap_mut := Induction for sign_swap Sort Prop
  with sign_swap_list_mut := Induction for sign_swap_list Sort Prop.

Definition sign_swap_arcs (a a' : field (list arc_item)) : Prop :=
  match a, a' with
  | Value l, Value l' => sign_swap_list l l'
  | Absent, Absent => True
  | Null, Null => True
  | _, _ => False
  end.

Definition sign_swap_geom (g g' : geometry) : Prop :=
  geom_id g = geom_id g' ∧ geom_properties g = geom_properties g'
  ∧ sign_swap_arcs (geom_arcs g) (geom_arcs g').

(** The unordered edges of a neighbor mapping: the two-element sets
    [{a, b}] with [b] in the neighbor set of [a]. *)
Definition edge_set (neighbors : gmap string (gset string))
    : gset (gset string) :=
  map_fold (λ a s acc, set_map (λ b, {[a; b]}) s ∪ acc) ∅ neighbors.

(** The number of unordered pairs among [n] elements. *)
Definition choose2 (n : nat) : nat := (n * (n - 1) / 2)%nat.

(** A geometry with a truthy id or a ['properties'] key. *)
Definition keyed (geom : geometry) : Prop :=
  truthy (geom_id geom) = true ∨ geom_properties geom ≠ Absent.

(** A geometry none of whose fields is [null]. *)
Definition null_free (geom : geometry) : Prop :=
  geom_properties geom ≠ Null ∧ geom_arcs geom ≠ Null.

#[export] Instance field_eq_dec `{EqDecision A} : EqDecision (field A).
Proof. solve_decision. Defined.

#[export] Instance keyed_dec geom : Decision (keyed geom).
Proof. unfold keyed. apply _. Defined.

(** ** Concrete inputs *)

Definition props_of (alpha3 name : string) : gmap string string :=
  {[ "alpha3" := alpha3; "name" := name ]}.

Definition geom_of (id alpha3 name : string) (arcs : list arc_item)
    : geometry :=
  Geometry (Some id) (Value (props_of alpha3 name)) (Value arcs).

Definition meta3 : gmap string (gmap string string) :=
  {[ "Aland" := {[ "alpha3" := "AAA" ]};
     "Bland" := {[ "alpha3" := "BBB" ]};
     "Cland" := {[ "alpha3" := "CCC" ]} ]}.

Definition geoms3 : list geometry :=
  [ geom_of "a" "AAA" "Aland" [Arcs [Arc 5]];
    geom_of "b" "BBB" "Bland" [Arcs [Arc (-6)]];
    geom_of "c" "CCC" "Cland" [Arcs [Arc 9]] ].

(** A region whose embedded code ["XXX"] is absent from the metadata shares
    arc 0 with the recognized region ["AAA"]. *)
Definition meta_one : gmap string (gmap string string) :=
  {[ "Aland" := {[ "alpha3" := "AAA" ]} ]}.

Definition geoms_foreign : list geometry :=
  [ geom_of "a" "AAA" "Aland" [Arc 0];
    geom_of "x" "XXX" "Xland" [Arc 0] ].

(** A geometry under the override, and one resolved through its name. *)
Definition geom_abv : geometry :=
  Geometry (Some "ABV") (Value (props_of "AAA" "Aland")) Absent.

Definition geom_named : geometry :=
  Geometry None (Value {[ "name" := "Aland" ]}) Absent.

(** Two regions absent from the metadata share arc 0. *)
Definition geoms_strangers : list geometry :=
  [ geom_of "x" "XXX" "Xland" [Arc 0];
    geom_of "y" "YYY" "Yland" [Arc (-1)] ].

(** A geometry without id and without properties. *)
Definition geom_anonymous : geometry := Geometry None Absent (Value [Arc 3]).

(** The second geometry of [geoms3] with its reference reversed. *)
Definition geoms3_swapped : list geometry :=
  [ geom_of "a" "AAA" "Aland" [Arcs [Arc 5]];
    geom_of "b" "BBB" "Bland" [Arcs [Arc 5]];
    geom_of "c" "CCC" "Cland" [Arcs [Arc 9]] ].

(** Two geometries with the same id: the first carries a code, the second
    resolves to nothing. *)
Definition geom_coded : geometry :=
  Geometry (Some "a") (Value {[ "alpha3" := "AAA" ]}) (Value [Arc 0]).

Definition geom_bare : geometry :=
  Geometry (Some "a") (Value ∅) (Value [Arc 7]).

(** Two geometries with the id ["k"], of codes ["CCC"] and ["AAA"]; the
    first shares arc 2 with ["BBB"], the second has arc 3 to itself. *)
Definition geoms_collision : list geometry :=
  [ geom_of "k" "CCC" "Cland" [Arc 2];
    geom_of "k" "AAA" "Aland" [Arc 3];
    geom_of "b" "BBB" "Bland" [Arc 2] ].

(** Geometries with a [null] field. *)
Definition geom_null_properties : geometry :=
  Geometry (Some "a") Null (Value [Arc 0]).

Definition geom_null_arcs : geometry :=
  Geometry (Some "a") (Value (props_of "AAA" "Aland")) Null.

(** ** Examples of the specification, run on the embedding *)

Example two_sharing_arc_5 :
  get_neighbors geoms3 meta3
  = Ok {[ "AAA" := ["BBB"]; "BBB" := ["AAA"]; "CCC" := [] ]}.
Proof. vm_compute. reflexivity. Qed.

Example three_sharing_one_arc :
  get_neighbors
    [ geom_of "a" "AAA" "Aland" [Arc 2];
      geom_of "b" "BBB" "Bland" [Arcs [Arcs [Arc (-3)]]];
      geom_of "c" "CCC" "Cland" [Arc 2; Arc 4] ] meta3
  = Ok {[ "AAA" := ["BBB"; "CCC"]; "BBB" := ["AAA"; "CCC"];
          "CCC" := ["AAA"; "BBB"] ]}.
Proof. vm_compute. reflexivity. Qed.

Example foreign_owner_is_listed :
  get_neighbors geoms_foreign meta_one = Ok {[ "AAA" := ["XXX"] ]}.
Proof. vm_compute. reflexivity. Qed.

Example bare_geometry_indexed :
  arc_table [geom_coded; geom_bare] meta_one
  = Ok {[ 0%Z := {[ "AAA" ]}; 7%Z := {[ "AAA" ]} ]}.
Proof. vm_compute. reflexivity. Qed.

(** * Properties *)

(** ** Loops that may raise *)

Section ForEach.
Context {A S : Type}.
Implicit Types (body : S → A → result S) (l : list A).

Lemma for_each_app body s l1 l2 :
  for_each body s (l1 ++ l2) = s' ← for_each body s l1; for_each body s' l2.
Proof.
  revert s. induction l1 as [|x l1 IH]; intros s; simpl; [done|].
  destruct (body s x) as [s'|e]; simpl; [apply IH | done].
Qed.

(** A loop whose body never raises returns. *)
Lemma for_each_ok body s l :
  Forall (λ x, ∀ s0, ∃ s1, body s0 x = Ok s1) l →
  ∃ s', for_each body s l = Ok s'.
Proof.
  intros Hl. revert s. induction Hl as [|x l Hx _ IH]; intros s; simpl.
  - by eexists.
  - destruct (Hx s) as [s1 ->]. simpl. apply IH.
Qed.

(** The first raising element decides the outcome when the body raises
    whatever the state. *)
Lemma for_each_raise body e s l :
  Forall (λ x, ∀ s0, (∃ s1, body s0 x = Ok s1) ∨ body s0 x = Raise e) l →
  Exists (λ x, ∀ s0, body s0 x = Raise e) l →
  for_each body s l = Raise e.
Proof.
  intros Hall Hex. revert s.
  induction Hex as [x l Hx|x l _ IH]; intros s; simpl.
  - by rewrite Hx.
  - inversion_clear Hall as [|?? Hx Hl].
    destruct (Hx s) as [[s1 ->]| ->]; simpl; [by apply IH | done].
Qed.
(** A loop that returns ran its body on every element without raising. *)
Lemma for_each_Ok_inv body s l s' :
  for_each body s l = Ok s' →
  Forall (λ x, ∃ s0 s1, body s0 x = Ok s1) l.
Proof.
  revert s. induction l as [|x l IH]; intros s; simpl; [by constructor|].
  destruct (body s x) as [s1|e] eqn:Hx; simpl; [|done].
  intros Hl. constructor; [by eauto | by eapply IH].
Qed.

(** A property of the state that every round keeps holds when the loop
    returns. *)
Lemma for_each_invariant (P : S → Prop) body s l s' :
  P s →
  (∀ s0 x s1, x ∈ l → P s0 → body s0 x = Ok s1 → P s1) →
  for_each body s l = Ok s' → P s'.
Proof.
  revert s. induction l as [|x l IH]; intros s Hs Hbody; simpl.
  - by intros [= <-].
  - destruct (body s x) as [s1|e] eqn:Hx; simpl; [|done].
    apply IH.
    + eapply Hbody; [|exact Hs|exact Hx]. by left.
    + intros s0 y s2 Hy. apply Hbody. by right.
Qed.
End ForEach.

(** ** Flattening *)

(** Induction on an item, with the property on every item of a nested
    list. *)
Lemma arc_item_Forall_ind (P : arc_item → Prop) :
  (∀ r, P (Arc r)) →
  (∀ items, Forall P items → P (Arcs items)) →
  ∀ item, P item.
Proof.
  intros Harc Harcs. fix IH 1. intros [r|items].
  - apply Harc.
  - apply Harcs. induction items as [|item items IHitems].
    + constructor.
    + constructor; [apply IH | exact IHitems].
Qed.

(** Induction on a nested arc structure, through the nested lists. *)
Lemma arcs_ind (P : list arc_item → Prop) :
  P [] →
  (∀ r rest, P rest → P (Arc r :: rest)) →
  (∀ items rest, P items → P rest → P (Arcs items :: rest)) →
  ∀ arcs, P arcs.
Proof.
  intros Hnil Harc Harcs arcs.
  cut (∀ item, match item with Arc _ => True | Arcs items => P items end).
  { intros Hall. apply (Hall (Arcs arcs)). }
  induction item as [r|items Hitems] using arc_item_Forall_ind; [done|].
  induction Hitems as [|item rest Hitem _ IH]; [exact Hnil|].
  destruct item as [r|items]; [by apply Harc | by apply Harcs].
Qed.

Lemma flatten_item_acc flat item :
  flatten_item flat item = flat ++ flatten_item [] item.
Proof. by destruct item. Qed.

Lemma foldl_flatten_item flat arcs :
  foldl flatten_item flat arcs = flat ++ flatten_arcs arcs.
Proof.
  unfold flatten_arcs. revert flat.
  induction arcs as [|item arcs IH]; intros flat; simpl.
  - by rewrite app_nil_r.
  - rewrite IH, (IH (flatten_item [] item)), (flatten_item_acc flat).
    by rewrite app_assoc.
Qed.

Lemma flatten_arcs_nil : flatten_arcs [] = [].
Proof. reflexivity. Qed.

Lemma flatten_arcs_cons_arc r rest :
  flatten_arcs (Arc r :: rest) = r :: flatten_arcs rest.
Proof. unfold flatten_arcs at 1. simpl. by rewrite foldl_flatten_item. Qed.

Lemma flatten_arcs_cons_arcs items rest :
  flatten_arcs (Arcs items :: rest) = flatten_arcs items ++ flatten_arcs rest.
Proof. unfold flatten_arcs at 1. simpl. by rewrite foldl_flatten_item. Qed.

Lemma flatten_arcs_app arcs1 arcs2 :
  flatten_arcs (arcs1 ++ arcs2) = flatten_arcs arcs1 ++ flatten_arcs arcs2.
Proof.
  unfold flatten_arcs at 1. by rewrite foldl_app, foldl_flatten_item.
Qed.

Lemma flatten_arcs_sound arcs : leaves_of arcs (flatten_arcs arcs).
Proof.
  induction arcs as [|r rest IH|items rest IH1 IH2] using arcs_ind.
  - constructor.
  - rewrite flatten_arcs_cons_arc. by constructor.
  - rewrite flatten_arcs_cons_arcs. by constructor.
Qed.

Lemma leaves_of_flatten arcs zs : leaves_of arcs zs → zs = flatten_arcs arcs.
Proof.
  induction 1 as [|r rest zs _ IH|items rest zs1 zs2 _ IH1 _ IH2].
  - done.
  - by rewrite flatten_arcs_cons_arc, IH.
  - by rewrite flatten_arcs_cons_arcs, IH1, IH2.
Qed.

(** ** Normalization *)

Lemma normalize_arc_nonneg r : 0 ≤ r → normalize_arc r = r.
Proof.
  intros Hr. unfold normalize_arc.
  destruct (Z.geb_spec r 0) as [_|Hlt]; [done | lia].
Qed.

Lemma normalize_arc_neg r : r < 0 → normalize_arc r = - r - 1.
Proof.
  intros Hr. unfold normalize_arc.
  destruct (Z.geb_spec r 0) as [Hge|_]; [lia | unfold Z.lnot; lia].
Qed.

Lemma normalize_arc_complement r : normalize_arc (- r - 1) = normalize_arc r.
Proof.
  destruct (Z.lt_ge_cases r 0) as [Hr|Hr].
  - rewrite (normalize_arc_neg r Hr). apply normalize_arc_nonneg. lia.
  - rewrite (normalize_arc_nonneg r Hr), normalize_arc_neg; lia.
Qed.

Lemma normalize_arc_range r : 0 ≤ normalize_arc r.
Proof.
  destruct (Z.lt_ge_cases r 0) as [Hr|Hr].
  - rewrite normalize_arc_neg; lia.
  - by rewrite normalize_arc_nonneg.
Qed.

(** ** The indexing of one geometry *)

Lemma add_owner_normalized target tbl r r' :
  normalize_arc r = normalize_arc r' →
  add_owner target tbl r = add_owner target tbl r'.
Proof. intros Hn. unfold add_owner. by rewrite Hn. Qed.

Lemma foldl_add_owner_normalized target tbl zs zs' :
  normalize_arc <$> zs = normalize_arc <$> zs' →
  foldl (add_owner target) tbl zs = foldl (add_owner target) tbl zs'.
Proof.
  revert tbl zs'. induction zs as [|r zs IH]; intros tbl [|r' zs'] Heq;
    simplify_eq/=; [done|].
  rewrite (add_owner_normalized target tbl r r') by done. by apply IH.
Qed.

(** When the second loop finds a key, it is the key of the first loop. *)
Lemma lookup_key_table_key geom key props :
  lookup_key geom = Ok key → get_properties geom = Ok props →
  table_key (geom_id geom) props = key.
Proof.
  unfold lookup_key, table_key, py_or, get_properties.
  destruct (truthy (geom_id geom)); [congruence|].
  destruct (geom_properties geom); simpl; congruence.
Qed.

Lemma lookup_key_ok geom :
  keyed geom → geom_properties geom ≠ Null → ∃ key, lookup_key geom = Ok key.
Proof.
  unfold keyed, lookup_key. intros Hk Hnull.
  destruct (truthy (geom_id geom)); [by eauto|].
  destruct (geom_properties geom); [naive_solver | done | by eauto].
Qed.

Lemma lookup_key_unkeyed geom :
  ¬ keyed geom → lookup_key geom = Raise (KeyError "properties").
Proof.
  unfold keyed, lookup_key. intros Hk.
  destruct (truthy (geom_id geom)); [naive_solver|].
  destruct (geom_properties geom); [done | |]; destruct Hk; by right.
Qed.

Lemma index_step_ok ids tbl geom :
  keyed geom → null_free geom → ∃ tbl', index_step ids tbl geom = Ok tbl'.
Proof.
  intros Hk [Hprops Harcs]. unfold index_step.
  destruct (lookup_key_ok geom Hk Hprops) as [key ->]. simpl.
  destruct (ids !! key) as [target|]; simpl; [|by eauto].
  destruct (bool_decide _); simpl; [|by eauto].
  unfold get_arcs. destruct (geom_arcs geom); simpl; by eauto.
Qed.

Lemma index_step_unkeyed ids tbl geom :
  ¬ keyed geom → index_step ids tbl geom = Raise (KeyError "properties").
Proof.
  intros Hk. unfold index_step. by rewrite (lookup_key_unkeyed _ Hk).
Qed.

(** A geometry whose key is unbound leaves the table as it is. *)
Lemma index_step_unbound ids tbl geom key :
  lookup_key geom = Ok key → ids !! key = None →
  index_step ids tbl geom = Ok tbl.
Proof. intros Hk Hn. unfold index_step. rewrite Hk. simpl. by rewrite Hn. Qed.

(** ** Direction of the references *)

Lemma flatten_arcs_cons item arcs :
  flatten_arcs (item :: arcs) = flatten_arcs [item] ++ flatten_arcs arcs.
Proof. apply (flatten_arcs_app [item] arcs). Qed.

Lemma sign_swap_list_flatten items items' :
  sign_swap_list items items' →
  normalize_arc <$> flatten_arcs items = normalize_arc <$> flatten_arcs items'.
Proof.
  apply (sign_swap_list_mut
    (λ a a' _, normalize_arc <$> flatten_arcs [a]
               = normalize_arc <$> flatten_arcs [a'])
    (λ l l' _, normalize_arc <$> flatten_arcs l
               = normalize_arc <$> flatten_arcs l')).
  - done.
  - intros r. rewrite !flatten_arcs_cons_arc. simpl.
    by rewrite normalize_arc_complement.
  - intros l l' _ IH. rewrite !flatten_arcs_cons_arcs.
    by rewrite !flatten_arcs_nil, !app_nil_r.
  - done.
  - intros a a' l l' _ IHa _ IHl.
    rewrite (flatten_arcs_cons a), (flatten_arcs_cons a'), !fmap_app.
    by rewrite IHa, IHl.
Qed.

Lemma sign_swap_list_refl items : sign_swap_list items items.
Proof.
  induction items as [|r rest IH|items rest IH1 IH2] using arcs_ind;
    repeat constructor; done.
Qed.

Lemma sign_swap_geom_refl geom : sign_swap_geom geom geom.
Proof.
  repeat split. destruct (geom_arcs geom); simpl; [done..|].
  apply sign_swap_list_refl.
Qed.

Lemma sign_swap_resolve_step metadata ids g g' :
  sign_swap_geom g g' →
  resolve_step metadata ids g = resolve_step metadata ids g'.
Proof.
  intros (Hid & Hprops & _).
  unfold resolve_step, get_properties. by rewrite Hid, Hprops.
Qed.

Lemma sign_swap_index_step ids tbl g g' :
  sign_swap_geom g g' → index_step ids tbl g = index_step ids tbl g'.
Proof.
  intros (Hid & Hprops & Harcs).
  unfold index_step, lookup_key. rewrite Hid, Hprops.
  destruct (if truthy _ then _ else _) as [key|e]; simpl; [|done].
  destruct (ids !! key) as [target|]; simpl; [|done].
  destruct (bool_decide _); simpl; [|done]. unfold get_arcs.
  destruct (geom_arcs g) as [| |l], (geom_arcs g') as [| |l']; simpl in *;
    try done.
  f_equal. apply foldl_add_owner_normalized.
  by apply sign_swap_list_flatten.
Qed.

Lemma sign_swap_for_each {S : Type} (body : S → geometry → result S) gs gs' :
  (∀ s g g', sign_swap_geom g g' → body s g = body s g') →
  Forall2 sign_swap_geom gs gs' →
  ∀ s, for_each body s gs = for_each body s gs'.
Proof.
  intros Hbody Hgs.
  induction Hgs as [|g g' gs gs' Hg _ IH]; intros s; simpl; [done|].
  rewrite (Hbody s g g' Hg).
  destruct (body s g'); simpl; [apply IH | done].
Qed.

Lemma sign_swap_build_id metadata gs gs' :
  Forall2 sign_swap_geom gs gs' →
  build_id_to_alpha3 metadata gs = build_id_to_alpha3 metadata gs'.
Proof.
  intros Hgs. apply sign_swap_for_each; [|done].
  intros. by apply sign_swap_resolve_step.
Qed.

Lemma sign_swap_build_arcs ids gs gs' :
  Forall2 sign_swap_geom gs gs' →
  build_arc_to_alpha3 ids gs = build_arc_to_alpha3 ids gs'.
Proof.
  intros Hgs. apply sign_swap_for_each; [|done].
  intros. by apply sign_swap_index_step.
Qed.

(** ** The id-to-code table *)

Lemma resolves_to_truthy metadata geom c :
  resolves_to metadata geom c → ¬ unresolved metadata geom.
Proof.
  intros (props & Hp & Hr & Hc) (props' & Hp' & Hu).
  rewrite Hp in Hp'. injection Hp' as <-. rewrite Hr in Hu. simpl in Hu.
  by rewrite bool_decide_true in Hu.
Qed.

(** What one round of the first loop does to the table. *)
Lemma resolve_step_cases metadata ids geom ids' :
  resolve_step metadata ids geom = Ok ids' →
  (∃ c key, resolves_to metadata geom c ∧ filed_under geom key
     ∧ ids' = <[key := c]> ids)
  ∨ (unresolved metadata geom ∧ ids' = ids).
Proof.
  unfold resolve_step, resolves_to, unresolved, filed_under.
  destruct (get_properties geom) as [props|e]; simpl; [|done].
  destruct (resolve_alpha3 metadata (geom_id geom) props) as [c|] eqn:Hr;
    simpl.
  - case_bool_decide as Hc; intros [= <-].
    + left. exists c, (table_key (geom_id geom) props).
      split; [by exists props|]. split; [by exists props | done].
    + right. split; [|done]. exists props. split; [done|]. rewrite Hr.
      simpl. by subst c.
  - intros [= <-]. right. split; [|done]. exists props. by rewrite Hr.
Qed.

Lemma filed_under_unique geom key key' :
  filed_under geom key → filed_under geom key' → key = key'.
Proof. intros (p & Hp & <-) (p' & Hp' & <-). congruence. Qed.

Lemma build_id_snoc metadata gs g ids :
  build_id_to_alpha3 metadata (gs ++ [g]) = Ok ids →
  ∃ ids0, build_id_to_alpha3 metadata gs = Ok ids0
    ∧ resolve_step metadata ids0 g = Ok ids.
Proof.
  unfold build_id_to_alpha3. rewrite for_each_app.
  destruct (for_each _ _ gs) as [ids0|e]; simpl; [|done].
  destruct (resolve_step metadata ids0 g) as [ids1|e] eqn:Hstep; simpl;
    [|done].
  intros [= <-]. eauto.
Qed.

(** A key is unbound exactly when every geometry filed under it is
    unresolved. *)
Lemma build_id_lookup_None metadata gs ids key :
  build_id_to_alpha3 metadata gs = Ok ids →
  ids !! key = None
  ↔ ∀ g, g ∈ gs → filed_under g key → unresolved metadata g.
Proof.
  revert ids. induction gs as [|g gs IH] using rev_ind; intros ids.
  - intros [= <-]. split; [|done]. intros _ g Hg. by apply elem_of_nil in Hg.
  - intros (ids0 & Hgs & Hstep)%build_id_snoc. specialize (IH ids0 Hgs).
    setoid_rewrite elem_of_app. setoid_rewrite list_elem_of_singleton.
    apply resolve_step_cases in Hstep
      as [(c & k & Hc & Hk & ->)|[Hu ->]].
    + destruct (decide (k = key)) as [<-|Hne].
      * rewrite lookup_insert_eq. split; [done|]. intros Hall.
        destruct (resolves_to_truthy _ _ _ Hc). apply Hall; auto.
      * rewrite lookup_insert_ne by done. rewrite IH.
        split; [|by eauto]. intros Hall g' [Hg'| ->] Hk'; [by eauto|].
        destruct Hne. by eapply filed_under_unique.
    + rewrite IH. split; [|by eauto].
      intros Hall g' [Hg'| ->] Hk; [eauto | done].
Qed.

(** A bound key holds the code of a geometry filed under it. *)
Lemma build_id_lookup_Some metadata gs ids key c :
  build_id_to_alpha3 metadata gs = Ok ids →
  ids !! key = Some c →
  ∃ g, g ∈ gs ∧ filed_under g key ∧ resolves_to metadata g c.
Proof.
  revert ids. induction gs as [|g gs IH] using rev_ind; intros ids.
  - by intros [= <-].
  - intros (ids0 & Hgs & Hstep)%build_id_snoc. specialize (IH ids0 Hgs).
    setoid_rewrite elem_of_app. setoid_rewrite list_elem_of_singleton.
    apply resolve_step_cases in Hstep
      as [(c' & k & Hc & Hk & ->)|[Hu ->]].
    + destruct (decide (k = key)) as [<-|Hne].
      * rewrite lookup_insert_eq. intros [= <-]. eauto.
      * rewrite lookup_insert_ne by done.
        intros (g' & ? & ? & ?)%IH. eauto 6.
    + intros (g' & ? & ? & ?)%IH. eauto 6.
Qed.

(** ** The recognized codes *)

Lemma elem_of_add_info acc info c :
  c ∈ add_info acc info ↔ (info !! "alpha3" = Some c ∧ c ≠ "") ∨ c ∈ acc.
Proof.
  unfold add_info. destruct (info !! "alpha3") as [c'|]; simpl.
  - case_bool_decide; [set_solver | naive_solver].
  - naive_solver.
Qed.

Lemma elem_of_all_alpha3_of metadata c :
  c ∈ all_alpha3_of metadata ↔ recognized metadata c.
Proof.
  unfold all_alpha3_of, recognized. revert c.
  apply (map_fold_weak_ind (λ acc m, ∀ c, c ∈ acc ↔
    ∃ name info, m !! name = Some info ∧ info !! "alpha3" = Some c ∧ c ≠ "")).
  - intros c. split; [set_solver|]. intros (n & info & Hn & _).
    by rewrite lookup_empty in Hn.
  - intros name info m acc Hfresh IH c.
    rewrite elem_of_add_info, IH. split.
    + intros [[Hc Hne]|(n & i & Hn & Hc & Hne)].
      * exists name, info. by rewrite lookup_insert_eq.
      * exists n, i. rewrite lookup_insert_ne by congruence. done.
    + intros (n & i & Hn & Hc & Hne).
      destruct (decide (name = n)) as [->|Hneq].
      * rewrite lookup_insert_eq in Hn. simplify_eq. by left.
      * rewrite lookup_insert_ne in Hn by done. right. eauto.
Qed.

(** ** The adjacency builder *)

Lemma add_pair_lookup a1 a2 nb a :
  add_pair a1 a2 nb !! a
  = (λ s, if decide (a = a1 ∧ a1 ≠ a2) then {[a2]} ∪ s else s) <$> nb !! a.
Proof.
  unfold add_pair. case_bool_decide as Hne.
  - destruct (nb !! a1) as [s1|] eqn:H1.
    + rewrite lookup_alter. case_decide as Ha.
      * subst a. rewrite H1. simpl. by rewrite decide_True.
      * destruct (nb !! a); simpl; [|done]. rewrite decide_False; naive_solver.
    + destruct (decide (a = a1)) as [->|Ha].
      * by rewrite H1.
      * destruct (nb !! a); simpl; [|done]. rewrite decide_False; naive_solver.
  - destruct (nb !! a); simpl; [|done]. rewrite decide_False; naive_solver.
Qed.

(** The inner loop, for one [a1]. *)
Lemma add_pairs_lookup a1 (owners : gset string) nb a :
  set_fold (λ a2 nb', add_pair a1 a2 nb') nb owners !! a
  = (λ s, if decide (a = a1) then (owners ∖ {[a1]}) ∪ s else s) <$> nb !! a.
Proof.
  revert a. apply (set_fold_ind_L (λ r (X : gset string), ∀ a, r !! a
    = (λ s, if decide (a = a1) then (X ∖ {[a1]}) ∪ s else s) <$> nb !! a)).
  - intros a. destruct (nb !! a) as [s|]; simpl; [|done].
    case_decide; f_equal; set_solver.
  - intros a2 X r Hfresh IH a. rewrite add_pair_lookup, IH.
    destruct (nb !! a) as [s|]; simpl; [|done]. f_equal.
    repeat case_decide; set_solver.
Qed.

Lemma size_gt_1 (owners : gset string) a b :
  a ∈ owners → b ∈ owners → a ≠ b → (1 < size owners)%nat.
Proof.
  intros Ha Hb Hne.
  assert ({[a; b]} ⊆ owners) as Hsub%subseteq_size by set_solver.
  rewrite size_union, !size_singleton in Hsub by set_solver. lia.
Qed.

(** The outer loop, run over the subset [X] of the owners. *)
Lemma add_all_pairs_lookup (owners X : gset string) nb a :
  set_fold (λ a1 nb1, set_fold (λ a2 nb2, add_pair a1 a2 nb2) nb1 owners)
    nb X !! a
  = (λ s, if decide (a ∈ X) then (owners ∖ {[a]}) ∪ s else s) <$> nb !! a.
Proof.
  revert a.
  pose (P := λ (r : gmap string (gset string)) (Y : gset string), ∀ a, r !! a
    = (λ s, if decide (a ∈ Y) then (owners ∖ {[a]}) ∪ s else s) <$> nb !! a).
  change (P (set_fold (λ a1 nb1,
    set_fold (λ a2 nb2, add_pair a1 a2 nb2) nb1 owners) nb X) X).
  apply set_fold_ind_L; unfold P; clear P.
  - intros a. destruct (nb !! a) as [s|]; simpl; [|done].
    rewrite decide_False; [done | set_solver].
  - intros a1 Y r Hfresh IH a. rewrite add_pairs_lookup, IH.
    destruct (nb !! a) as [s|]; simpl; [|done]. f_equal.
    repeat case_decide; set_solver.
Qed.

(** The neighbor set of a key after the loops of lines 74-79 on one owner
    set. *)
Lemma add_arc_edges_lookup (owners : gset string) nb a :
  add_arc_edges owners nb !! a
  = (λ s, if decide (a ∈ owners ∧ (1 < size owners)%nat)
          then (owners ∖ {[a]}) ∪ s else s) <$> nb !! a.
Proof.
  unfold add_arc_edges. case_bool_decide as Hsize.
  - rewrite add_all_pairs_lookup.
    destruct (nb !! a) as [s|]; simpl; [|done].
    repeat case_decide; naive_solver.
  - destruct (nb !! a) as [s|]; simpl; [|done].
    rewrite decide_False; naive_solver.
Qed.

Lemma add_arc_edges_dom owners nb :
  dom (add_arc_edges owners nb) = dom nb.
Proof.
  apply set_eq. intros a. rewrite !elem_of_dom, add_arc_edges_lookup.
  by rewrite fmap_is_Some.
Qed.

Lemma add_arc_edges_adjacent owners nb a b :
  adjacent (add_arc_edges owners nb) a b
  ↔ adjacent nb a b
    ∨ (is_Some (nb !! a) ∧ a ∈ owners ∧ b ∈ owners ∧ a ≠ b).
Proof.
  unfold adjacent. rewrite add_arc_edges_lookup.
  destruct (nb !! a) as [s|]; simpl.
  - split.
    + intros (s' & [= <-] & Hb). case_decide as Hdec.
      * apply elem_of_union in Hb as [Hb%elem_of_difference|Hb]; [|by eauto].
        right. split; [by eauto|]. set_solver.
      * eauto.
    + intros [(s' & [= <-] & Hb)|(_ & Ha & Hb & Hne)].
      * eexists. split; [done|]. case_decide; set_solver.
      * eexists. split; [done|].
        rewrite decide_True by eauto using size_gt_1. set_solver.
  - split; [by intros (? & ? & _) | intros [(? & ? & _)|([? ?] & _)]; done].
Qed.

Lemma build_neighbors_spec universe arc_to_alpha3 :
  dom (build_neighbors universe arc_to_alpha3) = universe
  ∧ ∀ a b, adjacent (build_neighbors universe arc_to_alpha3) a b
      ↔ a ∈ universe ∧ a ≠ b
        ∧ ∃ arc owners, arc_to_alpha3 !! arc = Some owners
            ∧ a ∈ owners ∧ b ∈ owners.
Proof.
  unfold build_neighbors.
  apply (map_fold_weak_ind (λ nb (m : gmap Z (gset string)),
    dom nb = universe
    ∧ ∀ a b, adjacent nb a b ↔ a ∈ universe ∧ a ≠ b
        ∧ ∃ arc owners, m !! arc = Some owners ∧ a ∈ owners ∧ b ∈ owners)).
  - split; [apply dom_gset_to_gmap|]. intros a b. unfold adjacent. split.
    + intros (s & Hs & Hb). apply lookup_gset_to_gmap_Some in Hs as [_ <-].
      set_solver.
    + intros (_ & _ & arc & owners & Hm & _). by rewrite lookup_empty in Hm.
  - intros arc owners m nb Hfresh [Hdom IH].
    split; [by rewrite add_arc_edges_dom|]. intros a b.
    rewrite add_arc_edges_adjacent, IH, <-elem_of_dom, Hdom. split.
    + intros [(Ha & Hne & arc' & O & Hm & HaO & HbO)|(Ha & HaO & HbO & Hne)].
      * repeat split; [done..|]. exists arc', O.
        rewrite lookup_insert_ne by congruence. done.
      * repeat split; [done..|]. exists arc, owners.
        by rewrite lookup_insert_eq.
    + intros (Ha & Hne & arc' & O & Hm & HaO & HbO).
      destruct (decide (arc = arc')) as [->|Harc].
      * rewrite lookup_insert_eq in Hm. simplify_eq. by right.
      * rewrite lookup_insert_ne in Hm by done. left. eauto 8.
Qed.

(** ** The output mapping *)

Lemma elem_of_sorted_list (v : gset string) b : b ∈ sorted_list v ↔ b ∈ v.
Proof.
  unfold sorted_list. by rewrite merge_sort_Permutation, elem_of_elements.
Qed.

Lemma sorted_list_Sorted (v : gset string) :
  Sorted String.le (sorted_list v).
Proof. apply (Sorted_merge_sort _). Qed.

Lemma sorted_list_NoDup (v : gset string) : NoDup (sorted_list v).
Proof.
  unfold sorted_list. rewrite merge_sort_Permutation. apply NoDup_elements.
Qed.

Lemma sorted_list_nil (v : gset string) : sorted_list v = [] ↔ v = ∅.
Proof.
  split.
  - intros Hnil. apply set_eq. intros b.
    rewrite <-elem_of_sorted_list, Hnil. set_solver.
  - intros ->. reflexivity.
Qed.

Lemma get_neighbors_Ok geometries metadata out :
  get_neighbors geometries metadata = Ok out
  ↔ ∃ tbl, arc_table geometries metadata = Ok tbl
      ∧ out = sorted_list <$> build_neighbors (all_alpha3_of metadata) tbl.
Proof.
  unfold get_neighbors.
  destruct (arc_table geometries metadata) as [tbl|e]; simpl.
  - split; [intros [= <-]; eauto | intros (? & [= <-] & ->); done].
  - split; [done | intros (? & ? & _); done].
Qed.

Lemma lists_sorted nb a b : lists (sorted_list <$> nb) a b ↔ adjacent nb a b.
Proof.
  unfold lists, adjacent. setoid_rewrite lookup_fmap_Some. split.
  - intros (l & (s & <- & Hs) & Hb). apply elem_of_sorted_list in Hb. eauto.
  - intros (s & Hs & Hb). exists (sorted_list s).
    rewrite elem_of_sorted_list. eauto.
Qed.

(** The keys are the recognized codes; [a] lists [b] exactly when [a] is
    recognized and some arc is owned by both. *)
Lemma get_neighbors_spec geometries metadata out tbl :
  arc_table geometries metadata = Ok tbl →
  get_neighbors geometries metadata = Ok out →
  (∀ c, is_Some (out !! c) ↔ recognized metadata c)
  ∧ (∀ a b, lists out a b ↔ recognized metadata a ∧ a ≠ b
       ∧ ∃ arc owners, tbl !! arc = Some owners ∧ a ∈ owners ∧ b ∈ owners).
Proof.
  intros Htbl (tbl' & Htbl' & ->)%get_neighbors_Ok.
  rewrite Htbl in Htbl'. injection Htbl' as <-.
  destruct (build_neighbors_spec (all_alpha3_of metadata) tbl) as [Hdom Hadj].
  split.
  - intros c. rewrite lookup_fmap, fmap_is_Some, <-elem_of_dom, Hdom.
    apply elem_of_all_alpha3_of.
  - intros a b. by rewrite lists_sorted, Hadj, elem_of_all_alpha3_of.
Qed.

Lemma get_neighbors_arc_table geometries metadata out :
  get_neighbors geometries metadata = Ok out →
  ∃ tbl, arc_table geometries metadata = Ok tbl.
Proof. intros (tbl & Htbl & _)%get_neighbors_Ok. eauto. Qed.

Lemma recognized_meta_one c : recognized meta_one c ↔ c = "AAA".
Proof.
  rewrite <-elem_of_all_alpha3_of.
  assert (all_alpha3_of meta_one = {[ "AAA" ]}) as -> by (by vm_compute).
  set_solver.
Qed.

(** * The claims *)

(** ** Arc references *)

(** C6. The canonical arc id of a reference [r] is [r] itself when [r] is
    non-negative, and [- r - 1], the bitwise complement of [r], when [r] is
    negative. *)
Theorem normalize_arc_canonical (r : Z) :
  (0 ≤ r → normalize_arc r = r)
  ∧ (r < 0 → normalize_arc r = - r - 1 ∧ normalize_arc r = Z.lnot r).
Proof.
  split; [apply normalize_arc_nonneg|]. intros Hr.
  rewrite normalize_arc_neg by done. unfold Z.lnot. lia.
Qed.

Lemma normalize_arc_canonical_witness :
  normalize_arc 5 = 5 ∧ normalize_arc (-6) = 5.
Proof.
  split.
  - apply (proj1 (normalize_arc_canonical 5)). lia.
  - destruct (proj2 (normalize_arc_canonical (-6))) as [H _]; [lia|].
    exact H.
Defined.

(** C9. [flatten_arcs] returns the leaves of a nested arc structure, all of
    them and in their order from left to right, whatever the depth of the
    nesting: its result is the one sequence that [leaves_of] describes.  An
    empty arc list flattens to the empty sequence, and the indexing loop
    over it leaves the ownership table unchanged. *)
Theorem flatten_arcs_correct (arcs : list arc_item) :
  leaves_of arcs (flatten_arcs arcs)
  ∧ (∀ zs, leaves_of arcs zs → zs = flatten_arcs arcs)
  ∧ flatten_arcs [] = []
  ∧ (∀ target tbl, foldl (add_owner target) tbl (flatten_arcs []) = tbl).
Proof.
  split; [apply flatten_arcs_sound|].
  split; [apply leaves_of_flatten|]. done.
Qed.

Lemma flatten_arcs_correct_witness :
  [1; -2; 3; 4] = flatten_arcs [Arcs [Arc 1; Arcs [Arc (-2)]]; Arcs []; Arc 3;
                                Arcs [Arcs [Arcs [Arc 4]]]].
Proof.
  apply (proj1 (proj2 (flatten_arcs_correct _))).
  apply (leaves_arcs [Arc 1; Arcs [Arc (-2)]] _ [1; -2] [3; 4]).
  - apply leaves_arc. apply (leaves_arcs [Arc (-2)] [] [-2] []).
    + apply leaves_arc, leaves_nil.
    + apply leaves_nil.
  - apply (leaves_arcs [] _ [] [3; 4]); [apply leaves_nil|].
    apply leaves_arc. apply (leaves_arcs _ [] [4] []); [|apply leaves_nil].
    apply (leaves_arcs _ [] [4] []); [|apply leaves_nil].
    apply (leaves_arcs _ [] [4] []); [|apply leaves_nil].
    apply leaves_arc, leaves_nil.
Defined.

(** C4. Sign-invariance: when the references of the geometries are replaced,
    at any positions, by their complements [- r - 1], ids and properties
    being kept, the run ends the same way with the same neighbor mapping. *)
Theorem sign_invariance (geometries geometries' : list geometry)
    (metadata : gmap string (gmap string string)) :
  Forall2 sign_swap_geom geometries geometries' →
  get_neighbors geometries metadata = get_neighbors geometries' metadata.
Proof.
  intros Hgs. unfold get_neighbors, arc_table.
  rewrite (sign_swap_build_id metadata _ _ Hgs).
  destruct (build_id_to_alpha3 metadata geometries') as [ids|e]; simpl;
    [|done].
  by rewrite (sign_swap_build_arcs _ _ _ Hgs).
Qed.

Lemma sign_invariance_witness :
  get_neighbors geoms3 meta3 = get_neighbors geoms3_swapped meta3.
Proof.
  apply sign_invariance. unfold geoms3, geoms3_swapped.
  constructor; [apply sign_swap_geom_refl|].
  constructor; [|constructor; [apply sign_swap_geom_refl | constructor]].
  split; [reflexivity|]. split; [reflexivity|]. simpl.
  apply swap_cons; [|apply swap_nil]. apply swap_arcs.
  apply swap_cons; [|apply swap_nil]. apply (swap_flip (-6)).
Defined.

(** ** Exceptions of the indexing pass *)

Lemma resolve_step_ok metadata ids geom :
  geom_properties geom ≠ Null →
  ∃ ids', resolve_step metadata ids geom = Ok ids'.
Proof.
  intros Hnull. unfold resolve_step, get_properties.
  destruct (geom_properties geom) as [| |props]; simpl; [|done|].
  - destruct (truthy _); [|by eauto]. destruct (resolve_alpha3 _ _ _); eauto.
  - destruct (truthy _); [|by eauto]. destruct (resolve_alpha3 _ _ _); eauto.
Qed.

Lemma build_id_ok metadata geometries :
  Forall null_free geometries →
  ∃ ids, build_id_to_alpha3 metadata geometries = Ok ids.
Proof.
  intros Hnf. apply for_each_ok. eapply Forall_impl; [exact Hnf|].
  intros g [Hg _] ids. by apply resolve_step_ok.
Qed.

Lemma build_arc_ok ids geometries :
  Forall keyed geometries → Forall null_free geometries →
  ∃ tbl, build_arc_to_alpha3 ids geometries = Ok tbl.
Proof.
  intros Hk Hnf. apply for_each_ok. apply Forall_forall. intros g Hg tbl.
  apply index_step_ok; by eapply Forall_forall.
Qed.

Lemma build_arc_unkeyed ids geometries :
  Forall null_free geometries → ¬ Forall keyed geometries →
  build_arc_to_alpha3 ids geometries = Raise (KeyError "properties").
Proof.
  intros Hnf Hk%not_Forall_Exists; [|apply _]. apply for_each_raise.
  - apply Forall_forall. intros g Hin tbl.
    destruct (decide (keyed g)) as [Hg|Hg].
    + left. apply index_step_ok; [done|]. by eapply Forall_forall.
    + right. by apply index_step_unkeyed.
  - eapply Exists_impl; [exact Hk|]. intros g Hg tbl.
    by apply index_step_unkeyed.
Qed.

Lemma build_arc_Ok_keyed ids geometries tbl :
  build_arc_to_alpha3 ids geometries = Ok tbl → Forall keyed geometries.
Proof.
  intros Hall%for_each_Ok_inv. eapply Forall_impl; [exact Hall|].
  intros g (tbl0 & tbl1 & Hg). destruct (decide (keyed g)) as [|Hno]; [done|].
  by rewrite (index_step_unkeyed _ _ _ Hno) in Hg.
Qed.

(** C10. The resolver pass reads a missing ['properties'] as an empty bag
    and does not raise on it; the indexing pass subscripts ['properties']
    when the id is absent or falsy and raises [KeyError] on a geometry that
    has neither, instead of skipping it.  So the run returns a mapping only
    if every geometry has a truthy id or a ['properties'] field; on
    geometries without [null] fields it returns exactly then, and raises
    [KeyError] on ['properties'] otherwise. *)
Theorem keyed_precondition (geometries : list geometry)
    (metadata : gmap string (gmap string string)) :
  (∀ out, get_neighbors geometries metadata = Ok out →
     Forall keyed geometries)
  ∧ (∀ ids ident arcs,
       resolve_step metadata ids (Geometry ident Absent arcs)
       = resolve_step metadata ids (Geometry ident (Value ∅) arcs)
       ∧ ∃ ids', resolve_step metadata ids (Geometry ident Absent arcs)
                 = Ok ids')
  ∧ (∀ ids tbl geom, ¬ keyed geom →
       index_step ids tbl geom = Raise (KeyError "properties"))
  ∧ (Forall null_free geometries → Forall keyed geometries →
     ∃ out, get_neighbors geometries metadata = Ok out)
  ∧ (Forall null_free geometries → ¬ Forall keyed geometries →
     get_neighbors geometries metadata = Raise (KeyError "properties")).
Proof.
  split; [|split; [|split; [|split]]].
  - intros out (tbl & Htbl & _)%get_neighbors_Ok. unfold arc_table in Htbl.
    destruct (build_id_to_alpha3 metadata geometries) as [ids|e];
      simpl in Htbl; [|done].
    by eapply build_arc_Ok_keyed.
  - intros ids ident arcs. split; [done|]. by apply resolve_step_ok.
  - intros ids tbl geom. apply index_step_unkeyed.
  - intros Hnf Hk. unfold get_neighbors, arc_table.
    destruct (build_id_ok metadata geometries Hnf) as [ids ->]. simpl.
    destruct (build_arc_ok ids geometries Hk Hnf) as [tbl ->]. simpl. eauto.
  - intros Hnf Hk. unfold get_neighbors, arc_table.
    destruct (build_id_ok metadata geometries Hnf) as [ids ->]. simpl.
    by rewrite (build_arc_unkeyed _ _ Hnf Hk).
Qed.

Lemma geoms3_null_free : Forall null_free (geoms3 ++ [geom_anonymous]).
Proof. repeat constructor; discriminate. Qed.

Lemma keyed_precondition_witness :
  Forall keyed geoms3
  ∧ index_step ∅ ∅ geom_anonymous = Raise (KeyError "properties")
  ∧ get_neighbors (geoms3 ++ [geom_anonymous]) meta3
    = Raise (KeyError "properties").
Proof.
  assert (¬ keyed geom_anonymous) as Hanon.
  { intros [Hid|Hprops]; [discriminate | by destruct Hprops]. }
  split; [|split].
  - apply (proj1 (keyed_precondition geoms3 meta3)
      {[ "AAA" := ["BBB"]; "BBB" := ["AAA"]; "CCC" := [] ]}).
    vm_compute. reflexivity.
  - apply (proj1 (proj2 (proj2 (keyed_precondition [] meta3)))). exact Hanon.
  - apply (proj2 (proj2 (proj2 (proj2
      (keyed_precondition (geoms3 ++ [geom_anonymous]) meta3))))).
    + apply geoms3_null_free.
    + intros Hall. apply Hanon.
      eapply (proj1 (Forall_forall _ _) Hall). apply elem_of_app. right.
      apply list_elem_of_singleton. reflexivity.
Defined.

(** ** Invariants of the output *)

(** C8. No self-adjacency: no code of the output appears in its own
    neighbor list. *)
Theorem no_self_adjacency (geometries : list geometry)
    (metadata : gmap string (gmap string string))
    (out : gmap string (list string)) (a : string) :
  get_neighbors geometries metadata = Ok out → ¬ lists out a a.
Proof.
  intros Hout.
  destruct (get_neighbors_arc_table _ _ _ Hout) as [tbl Htbl].
  destruct (get_neighbors_spec _ _ _ _ Htbl Hout) as [_ Hlists].
  rewrite Hlists. naive_solver.
Qed.

Lemma no_self_adjacency_witness :
  ¬ lists {[ "AAA" := ["BBB"]; "BBB" := ["AAA"]; "CCC" := [] ]} "AAA" "AAA".
Proof.
  apply (no_self_adjacency geoms3 meta3). vm_compute. reflexivity.
Defined.

(** C2, as stated, fails: a code can appear in the output as a value only.
    ["AAA"] lists ["XXX"], which appears in the output, and ["XXX"] has no
    neighbor list. *)
Lemma symmetry_fails_for_foreign_code :
  get_neighbors geoms_foreign meta_one = Ok {[ "AAA" := ["XXX"] ]}
  ∧ appears {[ "AAA" := ["XXX"] ]} "AAA"
  ∧ appears {[ "AAA" := ["XXX"] ]} "XXX"
  ∧ lists {[ "AAA" := ["XXX"] ]} "AAA" "XXX"
  ∧ ¬ lists {[ "AAA" := ["XXX"] ]} "XXX" "AAA".
Proof.
  assert (lists {[ "AAA" := ["XXX"] ]} "AAA" "XXX") as Hl.
  { exists ["XXX"]. split; [reflexivity | apply list_elem_of_singleton; done]. }
  split; [by vm_compute|]. split; [left; by eexists|].
  split; [right; by exists "AAA"|]. split; [done|].
  intros (l & Hl' & _). discriminate.
Qed.

(** C2, amended. The output mapping is symmetric on its keys: for all keys
    [a] and [b] of the output, [b] appears in the neighbor list of [a] if and
    only if [a] appears in the neighbor list of [b]. *)
Theorem symmetric_on_keys (geometries : list geometry)
    (metadata : gmap string (gmap string string))
    (out : gmap string (list string)) (a b : string) :
  get_neighbors geometries metadata = Ok out →
  is_Some (out !! a) → is_Some (out !! b) →
  (lists out a b ↔ lists out b a).
Proof.
  intros Hout Ha Hb.
  destruct (get_neighbors_arc_table _ _ _ Hout) as [tbl Htbl].
  destruct (get_neighbors_spec _ _ _ _ Htbl Hout) as [Hkeys Hlists].
  apply Hkeys in Ha, Hb. rewrite !Hlists. naive_solver.
Qed.

Lemma symmetric_on_keys_witness :
  lists {[ "AAA" := ["BBB"]; "BBB" := ["AAA"]; "CCC" := [] ]} "AAA" "BBB"
  ↔ lists {[ "AAA" := ["BBB"]; "BBB" := ["AAA"]; "CCC" := [] ]} "BBB" "AAA".
Proof.
  apply (symmetric_on_keys geoms3 meta3).
  - vm_compute. reflexivity.
  - by eexists.
  - by eexists.
Defined.

(** C1, as stated, fails: ["XXX"] is the embedded code of a geometry and no
    code of the metadata, it owns arc 0 together with ["AAA"], and it is in
    the neighbor list of ["AAA"]. *)
Lemma foreign_code_in_output :
  get_neighbors geoms_foreign meta_one = Ok {[ "AAA" := ["XXX"] ]}
  ∧ ¬ recognized meta_one "XXX"
  ∧ appears {[ "AAA" := ["XXX"] ]} "XXX".
Proof.
  split; [by vm_compute|]. split.
  - rewrite recognized_meta_one. discriminate.
  - right. exists "AAA", ["XXX"].
    split; [reflexivity | apply list_elem_of_singleton; done].
Qed.

(** C1, amended. A code that is not in the recognized universe never
    appears as a key of the output mapping. *)
Theorem foreign_code_never_a_key (geometries : list geometry)
    (metadata : gmap string (gmap string string))
    (out : gmap string (list string)) (c : string) :
  get_neighbors geometries metadata = Ok out →
  ¬ recognized metadata c → out !! c = None.
Proof.
  intros Hout Hc.
  destruct (get_neighbors_arc_table _ _ _ Hout) as [tbl Htbl].
  destruct (get_neighbors_spec _ _ _ _ Htbl Hout) as [Hkeys _].
  apply eq_None_not_Some. by rewrite Hkeys.
Qed.

Lemma foreign_code_never_a_key_witness :
  ({[ "AAA" := ["XXX"] ]} : gmap string (list string)) !! "XXX" = None.
Proof.
  apply (foreign_code_never_a_key geoms_foreign meta_one).
  - vm_compute. reflexivity.
  - rewrite recognized_meta_one. discriminate.
Defined.

(** C7. The second half of the claim fails on the code.  The first two
    geometries have the id ["k"]: the table of the first loop keeps the
    later code ["AAA"] for it, so the second loop files arc 2 of the
    ["CCC"] geometry under ["AAA"].  The only geometry of ["AAA"] has arc 3
    to itself, and yet ["AAA"] gets the neighbor ["BBB"]; ["CCC"], which
    shares arc 2 with ["BBB"], gets none. *)
Theorem colliding_ids_misattribute :
  build_id_to_alpha3 meta3 geoms_collision
  = Ok {[ Some "k" := "AAA"; Some "b" := "BBB" ]}
  ∧ arc_table geoms_collision meta3
    = Ok {[ 2 := {[ "AAA"; "BBB" ]}; 3 := {[ "AAA" ]} ]}
  ∧ get_neighbors geoms_collision meta3
    = Ok {[ "AAA" := ["BBB"]; "BBB" := ["AAA"]; "CCC" := [] ]}.
Proof. by vm_compute. Qed.

(** The keys of the output are the recognized codes, each with a list. *)
Theorem universe_keys (geometries : list geometry)
    (metadata : gmap string (gmap string string))
    (out : gmap string (list string)) (c : string) :
  get_neighbors geometries metadata = Ok out →
  (is_Some (out !! c) ↔ recognized metadata c).
Proof.
  intros Hout.
  destruct (get_neighbors_arc_table _ _ _ Hout) as [tbl Htbl].
  destruct (get_neighbors_spec _ _ _ _ Htbl Hout) as [Hkeys _].
  apply Hkeys.
Qed.

Lemma universe_keys_witness :
  is_Some (({[ "AAA" := ["BBB"]; "BBB" := ["AAA"]; "CCC" := [] ]}
              : gmap string (list string)) !! "CCC")
  ↔ recognized meta3 "CCC".
Proof.
  apply (universe_keys geoms3 meta3). vm_compute. reflexivity.
Defined.

(** ** The resolver *)

Lemma resolve_alpha3_overridden metadata ident props :
  overridden ident props → resolve_alpha3 metadata ident props = Some "SOM".
Proof.
  unfold overridden, resolve_alpha3. intros [Hn|Hi].
  - by rewrite (bool_decide_true _ Hn).
  - rewrite (bool_decide_true _ Hi). by rewrite orb_true_r.
Qed.

Lemma resolve_alpha3_plain metadata ident props :
  ¬ overridden ident props →
  resolve_alpha3 metadata ident props
  = let alpha3 := props !! "alpha3" in
    if truthy alpha3 then alpha3
    else match metadata_get metadata (props !! "name") with
         | Some entry => if bool_decide (entry ≠ ∅) then entry !! "alpha3"
                         else alpha3
         | None => alpha3
         end.
Proof.
  unfold overridden, resolve_alpha3. intros Hno.
  rewrite !bool_decide_false by naive_solver. simpl.
  destruct (truthy (props !! "alpha3")); simpl; [done|].
  by destruct (metadata_get _ _).
Qed.

(** C3. The last sentence of the claim fails on the code.  [geom_bare]
    resolves to no code, but it has the id of [geom_coded]: the table of the
    first loop binds that id to ["AAA"], the second loop finds ["AAA"] under
    the key of [geom_bare] and records its arc 7 for ["AAA"]. *)
Theorem unresolved_geometry_indexed :
  unresolved meta_one geom_bare
  ∧ build_id_to_alpha3 meta_one [geom_coded; geom_bare]
    = Ok {[ Some "a" := "AAA" ]}
  ∧ index_step {[ Some "a" := "AAA" ]} ∅ geom_bare
    = Ok {[ 7 := {[ "AAA" ]} ]}
  ∧ arc_table [geom_coded; geom_bare] meta_one
    = Ok {[ 0 := {[ "AAA" ]}; 7 := {[ "AAA" ]} ]}.
Proof.
  split; [exists ∅; by vm_compute|]. by vm_compute.
Qed.

(** The order of the resolver: ["SOM"] for a geometry whose name is
    ["Somaliland"] or whose id is ["ABV"]; otherwise the embedded
    [alpha3] when it is present and non-empty; otherwise the code of the
    metadata entry found under the name, when that entry exists and has a
    code; otherwise nothing truthy. *)
Theorem resolver_order (metadata : gmap string (gmap string string))
    (ident : option string) (props : gmap string string) :
  (overridden ident props → resolve_alpha3 metadata ident props = Some "SOM")
  ∧ (¬ overridden ident props →
     ∀ c, props !! "alpha3" = Some c → c ≠ "" →
       resolve_alpha3 metadata ident props = Some c)
  ∧ (¬ overridden ident props → truthy (props !! "alpha3") = false →
     ∀ name info c, props !! "name" = Some name →
       metadata !! name = Some info → info !! "alpha3" = Some c →
       resolve_alpha3 metadata ident props = Some c)
  ∧ (¬ overridden ident props → truthy (props !! "alpha3") = false →
     (∀ name info, props !! "name" = Some name →
        metadata !! name = Some info → truthy (info !! "alpha3") = false) →
     truthy (resolve_alpha3 metadata ident props) = false).
Proof.
  split; [|split; [|split]].
  - apply resolve_alpha3_overridden.
  - intros Hno c Hc Hne. rewrite resolve_alpha3_plain by done. simpl.
    rewrite Hc. simpl. by rewrite bool_decide_true.
  - intros Hno Hfalsy name info c Hname Hinfo Hc.
    rewrite resolve_alpha3_plain by done. simpl. rewrite Hfalsy, Hname.
    simpl. rewrite Hinfo. rewrite bool_decide_true; [done|].
    intros ->. by rewrite lookup_empty in Hc.
  - intros Hno Hfalsy Hmeta.
    rewrite resolve_alpha3_plain by done. simpl. rewrite Hfalsy.
    destruct (props !! "name") as [name|] eqn:Hname; simpl; [|done].
    destruct (metadata !! name) as [info|] eqn:Hinfo; [|done].
    case_bool_decide; [by eapply Hmeta | done].
Qed.

Ltac not_overridden :=
  let H := fresh in intros [H|H]; vm_compute in H; discriminate H.

Lemma resolver_order_witness :
  resolve_alpha3 meta_one (Some "ABV") (props_of "AAA" "Aland") = Some "SOM"
  ∧ resolve_alpha3 meta_one (Some "a") {[ "alpha3" := "AAA" ]} = Some "AAA"
  ∧ resolve_alpha3 meta_one None {[ "name" := "Aland" ]} = Some "AAA"
  ∧ truthy (resolve_alpha3 meta_one (Some "a") ∅) = false.
Proof.
  assert (¬ overridden (Some "a") {[ "alpha3" := "AAA" ]}) as Hcoded
    by not_overridden.
  assert (¬ overridden None {[ "name" := "Aland" ]}) as Hnamed
    by not_overridden.
  assert (¬ overridden (Some "a") ∅) as Hbare by not_overridden.
  split; [|split; [|split]].
  - apply (proj1 (resolver_order meta_one (Some "ABV") _)). right.
    reflexivity.
  - apply (proj1 (proj2 (resolver_order meta_one _ _)) Hcoded "AAA");
      [reflexivity | discriminate].
  - apply (proj1 (proj2 (proj2 (resolver_order meta_one _ _)))
      Hnamed eq_refl "Aland" {[ "alpha3" := "AAA" ]} "AAA"); reflexivity.
  - apply (proj2 (proj2 (proj2 (resolver_order meta_one _ _))) Hbare eq_refl).
    intros name info Hname. discriminate.
Defined.

(** A geometry adds nothing to the arc-ownership table when every geometry
    filed under its key is unresolved. *)
Theorem unbound_key_skipped (metadata : gmap string (gmap string string))
    (geometries : list geometry) (ids : gmap (option string) string)
    (tbl : gmap Z (gset string)) (geom : geometry) (key : option string) :
  build_id_to_alpha3 metadata geometries = Ok ids →
  lookup_key geom = Ok key →
  (∀ g, g ∈ geometries → filed_under g key → unresolved metadata g) →
  index_step ids tbl geom = Ok tbl.
Proof.
  intros Hids Hkey Hall. apply (index_step_unbound _ _ _ key Hkey).
  by apply (build_id_lookup_None metadata geometries).
Qed.

Lemma unbound_key_skipped_witness :
  index_step ∅ ∅ geom_bare = Ok ∅.
Proof.
  apply (unbound_key_skipped meta_one [geom_bare] ∅ ∅ geom_bare (Some "a"));
    [reflexivity | reflexivity |].
  intros g ->%list_elem_of_singleton _. exists ∅. by vm_compute.
Defined.

(** ** Counting the edges of one arc *)

Lemma adjacent_insert_fresh nb k s a b :
  nb !! k = None →
  adjacent (<[k:=s]> nb) a b ↔ (a = k ∧ b ∈ s) ∨ adjacent nb a b.
Proof.
  intros Hfresh. unfold adjacent. split.
  - intros (s' & Hs' & Hb). destruct (decide (k = a)) as [->|Hne].
    + rewrite lookup_insert_eq in Hs'. simplify_eq. by left.
    + rewrite lookup_insert_ne in Hs' by done. right. eauto.
  - intros [[-> Hb]|(s' & Hs' & Hb)].
    + exists s. by rewrite lookup_insert_eq.
    + exists s'. rewrite lookup_insert_ne by congruence. done.
Qed.

Lemma elem_of_edge_set nb e :
  e ∈ edge_set nb ↔ ∃ a b, adjacent nb a b ∧ e = {[a; b]}.
Proof.
  unfold edge_set. revert e.
  apply (map_fold_weak_ind (λ acc (m : gmap string (gset string)),
    ∀ e, e ∈ acc ↔ ∃ a b, adjacent m a b ∧ e = {[a; b]})).
  - intros e. split; [set_solver|].
    intros (a & b & (s & Hs & _) & _). by rewrite lookup_empty in Hs.
  - intros k s m acc Hfresh IH e.
    rewrite elem_of_union, elem_of_map, IH.
    setoid_rewrite (adjacent_insert_fresh m k s _ _ Hfresh). split.
    + intros [(b & -> & Hb)|(a & b & Hab & ->)]; eauto 8.
    + intros (a & b & [[-> Hb]|Hab] & ->); eauto 8.
Qed.

Lemma size_set_map_inj (f : string → gset string) (X : gset string) :
  (∀ b b', b ∈ X → b' ∈ X → f b = f b' → b = b') →
  size (set_map f X : gset (gset string)) = size X.
Proof.
  intros Hinj. unfold set_map. rewrite size_list_to_set.
  - by rewrite length_fmap.
  - apply NoDup_fmap_2_strong; [|apply NoDup_elements].
    intros b b' Hb%elem_of_elements Hb'%elem_of_elements. by apply Hinj.
Qed.

Lemma pair_set_inj (x b b' : string) :
  b ≠ x → b' ≠ x → ({[x; b]} : gset string) = {[x; b']} → b = b'.
Proof.
  intros Hb Hb' Heq.
  assert (b ∈ ({[x; b']} : gset string)) as Hin by (rewrite <-Heq; set_solver).
  set_solver.
Qed.

(** The two-element subsets of a set of [n] elements: there are [n (n-1) / 2]
    of them. *)
Lemma size_pair_sets (owners : gset string) (E : gset (gset string)) :
  (∀ e, e ∈ E ↔ ∃ a b, a ∈ owners ∧ b ∈ owners ∧ a ≠ b ∧ e = {[a; b]}) →
  (2 * size E = size owners * (size owners - 1))%nat.
Proof.
  revert E. induction owners as [|x owners Hx IH] using set_ind_L;
    intros E HE.
  - assert (E = ∅) as ->; [|by rewrite !size_empty].
    apply set_eq. intros e. rewrite HE. set_solver.
  - pose (E1 := set_map (λ b, {[x; b]}) owners : gset (gset string)).
    pose (E2 := filter (λ e, x ∉ e) E).
    assert (size E1 = size owners) as Hsize1.
    { apply size_set_map_inj. intros b b' Hb Hb'.
      apply pair_set_inj; set_solver. }
    assert (E = E1 ∪ E2) as Hsplit.
    { apply set_eq. intros e. unfold E1, E2.
      rewrite elem_of_union, elem_of_filter, elem_of_map, HE. split.
      - intros (a & b & Ha & Hb & Hne & ->).
        destruct (decide (a = x)) as [->|Hax].
        { left. exists b. set_solver. }
        destruct (decide (b = x)) as [->|Hbx].
        { left. exists a. split; [set_solver+ | set_solver]. }
        right. split; [set_solver|]. exists a, b. set_solver.
      - intros [(b & -> & Hb)|[_ He]]; [|done].
        exists x, b. set_solver. }
    assert (E1 ## E2) as Hdisj.
    { unfold E1, E2.
      intros e (b & -> & _)%elem_of_map [Hxe _]%elem_of_filter. set_solver. }
    assert (2 * size E2 = size owners * (size owners - 1))%nat as Hsize2.
    { apply IH. intros e. unfold E2. rewrite elem_of_filter, HE. split.
      - intros (Hxe & a & b & Ha & Hb & Hne & ->).
        exists a, b. set_solver.
      - intros (a & b & Ha & Hb & Hne & ->).
        split; [set_solver|]. exists a, b. set_solver. }
    assert (size E = size E1 + size E2)%nat as ->.
    { rewrite <-size_union by done. f_equal. exact Hsplit. }
    rewrite size_union by set_solver.
    rewrite size_singleton, Hsize1. nia.
Qed.

Lemma choose2_half (n s : nat) : (2 * s = n * (n - 1))%nat → s = choose2 n.
Proof.
  intros Hs. unfold choose2. rewrite <-Hs, Nat.mul_comm.
  by rewrite Nat.div_mul.
Qed.

(** The edges that one arc adds to a mapping without edges whose keys
    contain the owners. *)
Lemma edge_set_add_arc_edges owners nb e :
  owners ⊆ dom nb → edge_set nb = ∅ →
  e ∈ edge_set (add_arc_edges owners nb)
  ↔ ∃ a b, a ∈ owners ∧ b ∈ owners ∧ a ≠ b ∧ e = {[a; b]}.
Proof.
  intros Hsub Hempty. rewrite elem_of_edge_set.
  assert (∀ a b, ¬ adjacent nb a b) as Hnone.
  { intros a b Hab. apply (not_elem_of_empty (C:=gset (gset string)) {[a; b]}).
    rewrite <-Hempty. apply elem_of_edge_set. eauto. }
  setoid_rewrite add_arc_edges_adjacent. split.
  - intros (a & b & [Hab|(_ & Ha & Hb & Hne)] & ->).
    + by destruct (Hnone a b).
    + eauto 6.
  - intros (a & b & Ha & Hb & Hne & ->). exists a, b. split; [|done].
    right. split; [|done]. apply elem_of_dom. set_solver.
Qed.

(** C5, as stated, fails: arc 0 has the two owners ["XXX"] and ["YYY"],
    neither of which is recognized; they are not made adjacent, and the arc
    contributes no edge where [choose2 2] is one. *)
Lemma shared_arc_without_edge :
  arc_table geoms_strangers meta_one = Ok {[ 0 := {[ "XXX"; "YYY" ]} ]}
  ∧ size ({[ "XXX"; "YYY" ]} : gset string) = 2%nat
  ∧ get_neighbors geoms_strangers meta_one = Ok {[ "AAA" := [] ]}
  ∧ ¬ lists {[ "AAA" := [] ]} "XXX" "YYY"
  ∧ edge_set (add_arc_edges {[ "XXX"; "YYY" ]}
      (gset_to_gmap ∅ (all_alpha3_of meta_one))) = ∅
  ∧ choose2 2 = 1%nat.
Proof.
  split; [by vm_compute|]. split; [by vm_compute|].
  split; [by vm_compute|]. split; [|split; by vm_compute].
  intros (l & Hl & _). discriminate.
Qed.

(** C5, amended. An arc whose owner set has exactly one code contributes
    nothing.  An arc whose owner set has [N >= 2] codes adds [a2] to the
    neighbor set of [a1] for every ordered pair of distinct owners whose
    first component [a1] is a key of the mapping, and nothing else; when all
    its owners are keys, every two distinct owners become mutually adjacent
    and, on a mapping without edges, the arc contributes [C(N,2)] unordered
    edges. *)
Theorem threshold_rule (owners : gset string)
    (neighbors : gmap string (gset string)) :
  (size owners = 1%nat → add_arc_edges owners neighbors = neighbors)
  ∧ ((2 ≤ size owners)%nat →
     (∀ a1 a2, adjacent (add_arc_edges owners neighbors) a1 a2
        ↔ adjacent neighbors a1 a2
          ∨ (is_Some (neighbors !! a1) ∧ a1 ∈ owners ∧ a2 ∈ owners
             ∧ a1 ≠ a2))
     ∧ (owners ⊆ dom neighbors →
        (∀ a1 a2, a1 ∈ owners → a2 ∈ owners → a1 ≠ a2 →
           adjacent (add_arc_edges owners neighbors) a1 a2
           ∧ adjacent (add_arc_edges owners neighbors) a2 a1)
        ∧ (edge_set neighbors = ∅ →
           size (edge_set (add_arc_edges owners neighbors))
           = choose2 (size owners)))).
Proof.
  split.
  - intros Hone. unfold add_arc_edges. rewrite Hone.
    by rewrite bool_decide_false by lia.
  - intros Hsize. split; [apply add_arc_edges_adjacent|].
    intros Hsub. split.
    + intros a1 a2 H1 H2 Hne. rewrite !add_arc_edges_adjacent.
      split; right; (split; [apply elem_of_dom; set_solver | done]).
    + intros Hempty. apply choose2_half, size_pair_sets.
      intros e. by apply edge_set_add_arc_edges.
Qed.

Lemma threshold_rule_witness :
  add_arc_edges {[ "AAA" ]} (gset_to_gmap ∅ {[ "AAA"; "BBB"; "CCC" ]})
  = gset_to_gmap ∅ {[ "AAA"; "BBB"; "CCC" ]}
  ∧ size (edge_set (add_arc_edges {[ "AAA"; "BBB"; "CCC" ]}
            (gset_to_gmap ∅ {[ "AAA"; "BBB"; "CCC" ]})))
    = choose2 (size ({[ "AAA"; "BBB"; "CCC" ]} : gset string)).
Proof.
  split.
  - apply (proj1 (threshold_rule {[ "AAA" ]} _)). by vm_compute.
  - refine (proj2 (proj2 (proj2 (threshold_rule {[ "AAA"; "BBB"; "CCC" ]}
      (gset_to_gmap ∅ {[ "AAA"; "BBB"; "CCC" ]})) _) _) _).
    + vm_compute. lia.
    + by vm_compute.
    + by vm_compute.
Defined.

(** * Further properties of the script *)

(** ** Exceptions on [null] fields *)

Lemma resolve_step_outcome metadata ids geom :
  (∃ ids', resolve_step metadata ids geom = Ok ids')
  ∨ resolve_step metadata ids geom = Raise AttributeError.
Proof.
  destruct (decide (geom_properties geom = Null)) as [Hnull|Hnull].
  - right. unfold resolve_step, get_properties. by rewrite Hnull.
  - left. by apply resolve_step_ok.
Qed.

(** A [null] ['properties'] stops the run in the first loop: [.get] is
    called on [None] at line 26, whatever the id and the other geometries
    are. *)
Theorem null_properties_raise (geometries : list geometry)
    (metadata : gmap string (gmap string string)) :
  Exists (λ g, geom_properties g = Null) geometries →
  get_neighbors geometries metadata = Raise AttributeError.
Proof.
  intros Hex. unfold get_neighbors, arc_table.
  assert (build_id_to_alpha3 metadata geometries = Raise AttributeError)
    as ->; [|done].
  apply for_each_raise.
  - apply Forall_forall. intros g _ ids. apply resolve_step_outcome.
  - eapply Exists_impl; [exact Hex|]. intros g Hg ids.
    unfold resolve_step, get_properties. by rewrite Hg.
Qed.

Lemma null_properties_raise_witness :
  get_neighbors (geoms3 ++ [geom_null_properties]) meta3
  = Raise AttributeError.
Proof.
  apply null_properties_raise. apply Exists_app. right.
  apply Exists_cons_hd. reflexivity.
Defined.

(** A [null] ['arcs'] makes the second loop raise [TypeError] at a geometry
    whose key is bound to a code, and only there: under an unbound key the
    geometry is skipped before its arcs are read. *)
Theorem null_arcs_raise (ids : gmap (option string) string)
    (tbl : gmap Z (gset string)) (geom : geometry) (key : option string) :
  lookup_key geom = Ok key → geom_arcs geom = Null →
  (∀ c, ids !! key = Some c → c ≠ "" →
     index_step ids tbl geom = Raise TypeError)
  ∧ (ids !! key = None → index_step ids tbl geom = Ok tbl).
Proof.
  intros Hkey Hnull. unfold index_step, get_arcs. rewrite Hkey, Hnull. simpl.
  split.
  - intros c -> Hc. simpl. by rewrite bool_decide_true.
  - by intros ->.
Qed.

Lemma null_arcs_raise_witness :
  index_step {[ Some "a" := "AAA" ]} ∅ geom_null_arcs = Raise TypeError
  ∧ index_step ∅ ∅ geom_null_arcs = Ok ∅.
Proof.
  destruct (null_arcs_raise {[ Some "a" := "AAA" ]} ∅ geom_null_arcs
    (Some "a") eq_refl eq_refl) as [Hbound _].
  destruct (null_arcs_raise ∅ ∅ geom_null_arcs (Some "a") eq_refl eq_refl)
    as [_ Hfree].
  split.
  - apply (Hbound "AAA"); [reflexivity | discriminate].
  - apply Hfree. reflexivity.
Defined.

(** ** Shape of the output *)

(** Every neighbor list of the output is sorted in the order of the strings
    and has no duplicate (line 82, over a set). *)
Theorem lists_sorted_nodup (geometries : list geometry)
    (metadata : gmap string (gmap string string))
    (out : gmap string (list string)) (a : string) (l : list string) :
  get_neighbors geometries metadata = Ok out →
  out !! a = Some l →
  Sorted String.le l ∧ NoDup l.
Proof.
  intros (tbl & _ & ->)%get_neighbors_Ok.
  rewrite lookup_fmap_Some. intros (s & <- & _).
  split; [apply sorted_list_Sorted | apply sorted_list_NoDup].
Qed.

Lemma lists_sorted_nodup_witness :
  Sorted String.le ["BBB"; "CCC"] ∧ NoDup ["BBB"; "CCC"].
Proof.
  apply (lists_sorted_nodup
    [ geom_of "c" "CCC" "Cland" [Arc 2]; geom_of "b" "BBB" "Bland" [Arc 2];
      geom_of "a" "AAA" "Aland" [Arc 2] ] meta3
    {[ "AAA" := ["BBB"; "CCC"]; "BBB" := ["AAA"; "CCC"];
       "CCC" := ["AAA"; "BBB"] ]} "AAA").
  - vm_compute. reflexivity.
  - reflexivity.
Defined.

(** Without geometries every recognized code has the empty list. *)
Theorem no_geometry_no_neighbor (metadata : gmap string (gmap string string))
    (c : string) :
  recognized metadata c →
  ∃ out, get_neighbors [] metadata = Ok out ∧ out !! c = Some [].
Proof.
  intros Hc%elem_of_all_alpha3_of. eexists. split; [reflexivity|].
  unfold build_neighbors. rewrite map_fold_empty, lookup_fmap.
  by rewrite lookup_gset_to_gmap, option_guard_True.
Qed.

Lemma no_geometry_no_neighbor_witness :
  ∃ out, get_neighbors [] meta3 = Ok out ∧ out !! "BBB" = Some [].
Proof.
  apply no_geometry_no_neighbor.
  exists "Bland", {[ "alpha3" := "BBB" ]}. by vm_compute.
Defined.

(** The neighbor lists read off the arc-ownership table: [a] lists [b]
    exactly when [a] is recognized, differs from [b] and owns, in the table
    of the run, an arc that [b] owns too. *)
Theorem lists_from_ownership (geometries : list geometry)
    (metadata : gmap string (gmap string string))
    (tbl : gmap Z (gset string)) (out : gmap string (list string))
    (a b : string) :
  arc_table geometries metadata = Ok tbl →
  get_neighbors geometries metadata = Ok out →
  lists out a b
  ↔ recognized metadata a ∧ a ≠ b ∧ ∃ n, owns tbl a n ∧ owns tbl b n.
Proof.
  intros Htbl Hout.
  destruct (get_neighbors_spec _ _ _ _ Htbl Hout) as [_ Hlists].
  rewrite Hlists. unfold owns. split.
  - intros (Ha & Hne & n & owners & Hn & HaO & HbO). eauto 10.
  - intros (Ha & Hne & n & (o1 & Hn1 & HaO) & (o2 & Hn2 & HbO)).
    rewrite Hn1 in Hn2. injection Hn2 as <-. eauto 10.
Qed.

Lemma lists_from_ownership_witness :
  lists {[ "AAA" := ["XXX"] ]} "AAA" "XXX"
  ↔ recognized meta_one "AAA" ∧ "AAA" ≠ "XXX"
    ∧ ∃ n, owns {[ 0 := {[ "AAA"; "XXX" ]} ]} "AAA" n
        ∧ owns {[ 0 := {[ "AAA"; "XXX" ]} ]} "XXX" n.
Proof.
  apply (lists_from_ownership geoms_foreign meta_one); by vm_compute.
Defined.

(** ** The arc-ownership table, from the geometries *)

Lemma add_owner_lookup target tbl r n :
  add_owner target tbl r !! n
  = if decide (n = normalize_arc r)
    then Some ({[target]} ∪ default ∅ (tbl !! n))
    else tbl !! n.
Proof.
  unfold add_owner. case_decide as Hn.
  - subst n. destruct (tbl !! normalize_arc r) as [owners|] eqn:Hr.
    + by rewrite lookup_alter_eq, Hr.
    + by rewrite lookup_alter_eq, lookup_insert_eq.
  - rewrite lookup_alter_ne by done.
    destruct (tbl !! normalize_arc r); [done|].
    by rewrite lookup_insert_ne.
Qed.

Lemma owns_add_owner target tbl r c n :
  owns (add_owner target tbl r) c n
  ↔ owns tbl c n ∨ (c = target ∧ n = normalize_arc r).
Proof.
  unfold owns. rewrite add_owner_lookup. case_decide as Hn.
  - split.
    + intros (owners & [= <-] & [->%elem_of_singleton|Hc]%elem_of_union).
      * by right.
      * left. destruct (tbl !! n) as [o|]; [by eauto | set_solver].
    + intros [(owners & Ho & Hc)|[-> _]].
      * eexists. split; [done|]. rewrite Ho. set_solver.
      * eexists. split; [done|]. set_solver.
  - naive_solver.
Qed.

Lemma owns_foldl_add_owner target tbl zs c n :
  owns (foldl (add_owner target) tbl zs) c n
  ↔ owns tbl c n ∨ (c = target ∧ n ∈ normalize_arc <$> zs).
Proof.
  revert tbl. induction zs as [|r zs IH]; intros tbl; simpl.
  - split; [by left|]. intros [?|[_ Hn]]; [done|]. by apply elem_of_nil in Hn.
  - rewrite IH, owns_add_owner, elem_of_cons. naive_solver.
Qed.

(** What one round of the second loop adds to the table. *)
Lemma owns_index_step ids tbl geom tbl' c n :
  index_step ids tbl geom = Ok tbl' →
  owns tbl' c n ↔ owns tbl c n ∨ (indexed_under ids geom c ∧ traverses geom n).
Proof.
  unfold index_step, indexed_under, traverses.
  destruct (lookup_key geom) as [key|e]; simpl; [|done].
  destruct (ids !! key) as [target|] eqn:Hkey; simpl.
  - case_bool_decide as Htarget; simpl.
    + destruct (get_arcs geom) as [arcs_list|e]; simpl; [|done].
      intros [= <-]. rewrite owns_foldl_add_owner. split.
      * intros [?|[-> Hn]]; [by left|]. right. split; eauto.
      * intros [?|[(k & [= <-] & Hc & _) (l & [= <-] & Hn)]]; [by left|].
        right. split; [congruence | done].
    + intros [= <-]. split; [by left|].
      intros [?|[(k & [= <-] & Hc & Hne) _]]; [done|].
      destruct Htarget. congruence.
  - intros [= <-]. split; [by left|].
    intros [?|[(k & [= <-] & Hc & _) _]]; [done | congruence].
Qed.

Lemma owns_empty c n : ¬ owns ∅ c n.
Proof. intros (owners & Ho & _). by rewrite lookup_empty in Ho. Qed.

Lemma owns_build_arc ids geometries tbl c n :
  build_arc_to_alpha3 ids geometries = Ok tbl →
  owns tbl c n
  ↔ ∃ g, g ∈ geometries ∧ indexed_under ids g c ∧ traverses g n.
Proof.
  unfold build_arc_to_alpha3. revert tbl.
  induction geometries as [|g gs IH] using rev_ind; intros tbl.
  - intros [= <-]. split; [by intros ?%owns_empty|].
    intros (g & Hg & _). by apply elem_of_nil in Hg.
  - rewrite for_each_app.
    destruct (for_each _ _ gs) as [tbl0|e]; simpl; [|done].
    destruct (index_step ids tbl0 g) as [tbl1|e] eqn:Hstep; simpl; [|done].
    intros [= <-]. rewrite (owns_index_step _ _ _ _ _ _ Hstep), (IH tbl0 eq_refl).
    setoid_rewrite elem_of_app. setoid_rewrite list_elem_of_singleton.
    naive_solver.
Qed.

(** The owners of an arc are the codes under which the second loop indexes
    the geometries that reference it, in either direction: [c] owns [n]
    exactly when some geometry whose key is bound to [c] in the table of the
    first loop has a reference of canonical id [n]. *)
Theorem arc_ownership (geometries : list geometry)
    (metadata : gmap string (gmap string string))
    (ids : gmap (option string) string) (tbl : gmap Z (gset string))
    (c : string) (n : Z) :
  build_id_to_alpha3 metadata geometries = Ok ids →
  arc_table geometries metadata = Ok tbl →
  owns tbl c n
  ↔ ∃ g, g ∈ geometries ∧ indexed_under ids g c ∧ traverses g n.
Proof.
  intros Hids. unfold arc_table. rewrite Hids. simpl. apply owns_build_arc.
Qed.

Lemma arc_ownership_witness :
  owns {[ 2 := {[ "AAA"; "BBB" ]}; 3 := {[ "AAA" ]} ]} "AAA" 2
  ↔ ∃ g, g ∈ geoms_collision
      ∧ indexed_under {[ Some "k" := "AAA"; Some "b" := "BBB" ]} g "AAA"
      ∧ traverses g 2.
Proof.
  apply (arc_ownership geoms_collision meta3); by vm_compute.
Defined.

(** Every entry of the arc-ownership table has a non-negative arc id and at
    least one owner. *)
Theorem arc_table_entries (geometries : list geometry)
    (metadata : gmap string (gmap string string))
    (tbl : gmap Z (gset string)) (n : Z) (owners : gset string) :
  arc_table geometries metadata = Ok tbl →
  tbl !! n = Some owners → 0 ≤ n ∧ owners ≠ ∅.
Proof.
  unfold arc_table.
  destruct (build_id_to_alpha3 metadata geometries) as [ids|e]; simpl;
    [|done].
  intros Htbl. revert n owners.
  eapply (for_each_invariant
    (λ t : gmap Z (gset string), ∀ n o, t !! n = Some o → 0 ≤ n ∧ o ≠ ∅));
    [| |exact Htbl].
  { intros n o Hn. by rewrite lookup_empty in Hn. }
  intros t g t' _ Ht. unfold index_step.
  destruct (lookup_key g) as [key|e]; simpl; [|done].
  destruct (negb _); [by intros [= <-]|].
  destruct (ids !! key) as [target|]; [|by intros [= <-]].
  destruct (get_arcs g) as [arcs_list|e]; simpl; [|done].
  intros [= <-]. generalize (flatten_arcs arcs_list). intros zs.
  revert t Ht. induction zs as [|r zs IH]; intros t Ht; simpl; [done|].
  apply IH. intros n o. rewrite add_owner_lookup. case_decide as Hn.
  - intros [= <-]. split; [subst n; apply normalize_arc_range | set_solver].
  - apply Ht.
Qed.

Lemma arc_table_entries_witness :
  0 ≤ 2 ∧ ({[ "AAA"; "BBB" ]} : gset string) ≠ ∅.
Proof.
  apply (arc_table_entries geoms_collision meta3
    {[ 2 := {[ "AAA"; "BBB" ]}; 3 := {[ "AAA" ]} ]}); by vm_compute.
Defined.

(** ** Geometries with distinct keys *)

Lemma build_id_Ok_properties metadata geometries ids g :
  build_id_to_alpha3 metadata geometries = Ok ids → g ∈ geometries →
  ∃ props, get_properties g = Ok props.
Proof.
  intros Hall%for_each_Ok_inv Hg.
  destruct (proj1 (Forall_forall _ _) Hall g Hg) as (ids0 & ids1 & Hstep).
  unfold resolve_step in Hstep.
  destruct (get_properties g) as [props|e]; [by eauto | done].
Qed.

Lemma resolves_to_unique metadata g c c' :
  resolves_to metadata g c → resolves_to metadata g c' → c = c'.
Proof. intros (p & Hp & Hc & _) (p' & Hp' & Hc' & _). congruence. Qed.

(** With distinct keys the table of the first loop holds, under the key of
    each geometry, the code this geometry resolves to. *)
Lemma indexed_under_resolves metadata geometries ids g c :
  distinct_keys geometries →
  build_id_to_alpha3 metadata geometries = Ok ids →
  g ∈ geometries → keyed g →
  indexed_under ids g c ↔ resolves_to metadata g c.
Proof.
  intros Hdistinct Hids Hg Hkeyed.
  destruct (build_id_Ok_properties _ _ _ _ Hids Hg) as [props Hprops].
  assert (geom_properties g ≠ Null) as Hnull.
  { intros Hn. unfold get_properties in Hprops. by rewrite Hn in Hprops. }
  destruct (lookup_key_ok g Hkeyed Hnull) as [key Hkey].
  assert (filed_under g key) as Hfiled.
  { exists props. split; [done|]. by eapply lookup_key_table_key. }
  unfold indexed_under. rewrite Hkey. split.
  - intros (k & [= <-] & Hc & _).
    destruct (build_id_lookup_Some _ _ _ _ _ Hids Hc) as (g' & Hg' & Hf' & Hr).
    by rewrite (Hdistinct g g' key Hg Hg' Hfiled Hf').
  - intros Hr. exists key. split; [done|].
    destruct (ids !! key) as [c'|] eqn:Hc'.
    + destruct (build_id_lookup_Some _ _ _ _ _ Hids Hc')
        as (g' & Hg' & Hf' & Hr').
      rewrite <-(Hdistinct g g' key Hg Hg' Hfiled Hf') in Hr'.
      rewrite (resolves_to_unique _ _ _ _ Hr Hr').
      split; [done|]. by destruct Hr' as (? & _ & _ & ?).
    + destruct (resolves_to_truthy _ _ _ Hr).
      by apply (proj1 (build_id_lookup_None _ _ _ key Hids) Hc' g).
Qed.

(** The adjacency relation of the output when no two geometries have the
    same id/name key: [a] lists [b] exactly when [a] is recognized, differs
    from [b], and a geometry that resolves to [a] and a geometry that resolves
    to [b] reference a common arc, in either direction. *)
Theorem adjacency_of_distinct_keys (geometries : list geometry)
    (metadata : gmap string (gmap string string))
    (out : gmap string (list string)) (a b : string) :
  distinct_keys geometries →
  get_neighbors geometries metadata = Ok out →
  lists out a b
  ↔ recognized metadata a ∧ a ≠ b
    ∧ ∃ g1 g2 n, g1 ∈ geometries ∧ g2 ∈ geometries
        ∧ resolves_to metadata g1 a ∧ resolves_to metadata g2 b
        ∧ traverses g1 n ∧ traverses g2 n.
Proof.
  intros Hdistinct Hout.
  destruct (get_neighbors_arc_table _ _ _ Hout) as [tbl Htbl].
  destruct (get_neighbors_spec _ _ _ _ Htbl Hout) as [_ Hlists].
  unfold arc_table in Htbl.
  destruct (build_id_to_alpha3 metadata geometries) as [ids|e] eqn:Hids;
    simpl in Htbl; [|done].
  pose proof (build_arc_Ok_keyed _ _ _ Htbl) as Hkeyed.
  assert (∀ g c, g ∈ geometries →
    indexed_under ids g c ↔ resolves_to metadata g c) as Hidx.
  { intros g c Hg.
    apply (indexed_under_resolves metadata geometries); [done..|].
    by apply (proj1 (Forall_forall _ _) Hkeyed). }
  assert (∀ c n, owns tbl c n ↔
    ∃ g, g ∈ geometries ∧ resolves_to metadata g c ∧ traverses g n) as Howns.
  { intros c n. rewrite (owns_build_arc _ _ _ _ _ Htbl). split.
    - intros (g & Hg & Hi & Ht). exists g. by rewrite <-Hidx.
    - intros (g & Hg & Hr & Ht). exists g. by rewrite Hidx. }
  rewrite Hlists. split.
  - intros (Ha & Hne & n & owners & Hn & HaO & HbO).
    split; [done|]. split; [done|].
    destruct (proj1 (Howns a n)) as (g1 & ? & ? & ?); [by exists owners|].
    destruct (proj1 (Howns b n)) as (g2 & ? & ? & ?); [by exists owners|].
    exists g1, g2, n. done.
  - intros (Ha & Hne & g1 & g2 & n & Hg1 & Hg2 & Hr1 & Hr2 & Ht1 & Ht2).
    split; [done|]. split; [done|].
    destruct (proj2 (Howns a n)) as (o1 & Ho1 & HaO); [by eauto|].
    destruct (proj2 (Howns b n)) as (o2 & Ho2 & HbO); [by eauto|].
    rewrite Ho1 in Ho2. injection Ho2 as <-. eauto 6.
Qed.
